(** * linear_algebra.py: transform matrices, angle extractors, angle normalizers

    A shallow embedding of [math/python/linear_algebra.py] and the proofs
    of its specification.

    Floating-point numbers are numpy [float64] values, modelled by Rocq's
    primitive binary64 floats ([PrimFloat.float]): [np.abs], [np.sqrt],
    [np.isnan], [<], [>], [+], [-] and [%] are the IEEE 754 operations,
    with their rounding.  [np.nan] is [nan].

    A coordinate of a point is a float or an integer ([number]): the
    module's self-test passes Python integers, which numpy computes with
    as [int64], with wrap-around in [np.abs], [np.power] and [+], and
    converts to [float64] where a function needs a float.  In the matrix
    builders and the angle normalizers an integer argument stands for the
    float of the same value.

    The transcendental functions of numpy
    ([np.arctan2], [np.degrees], [np.radians], [np.cos], [np.sin],
    [np.power] on floats) are not part of the repository: the functions
    that call them take them as parameters, and a theorem that needs a
    property of one of them states it as a hypothesis.

    A point is a Python sequence indexed with [p[i]]; an index out of
    range raises [IndexError], modelled as [None]. *)

From Stdlib Require Import ZArith Lia List Bool Floats.
Import ListNotations.

Set Warnings "-inexact-float".

Local Open Scope float_scope.

(** ** Python and numpy primitives *)

(** C's [fmod] on binary64: the remainder of the truncated division,
    computed exactly on the integer mantissas; it takes the sign of [x]. *)
Definition fmod (x y : float) : float :=
  match Prim2SF x, Prim2SF y with
  | S754_nan, _ | _, S754_nan => nan
  | S754_infinity _, _ => nan
  | _, S754_zero _ => nan
  | S754_zero _, _ => x
  | S754_finite _ _ _, S754_infinity _ => x
  | S754_finite sx mx ex, S754_finite _ my ey =>
      let e := Z.min ex ey in
      let X := (Zpos mx * 2 ^ (ex - e))%Z in
      let Y := (Zpos my * 2 ^ (ey - e))%Z in
      SF2Prim (binary_normalize prec emax (cond_Zopp sx (X mod Y)) e sx)
  end.

(** C's [copysign]. *)
Definition copysign (x y : float) : float :=
  if get_sign y then - (abs x) else abs x.

(** The [%] operator on floats (CPython's [float_rem], numpy's
    [npy_divmod]): [fmod], then the remainder is given the sign of the
    divisor.  A zero divisor gives [nan] (numpy; Python proper raises). *)
Definition float_rem (vx wx : float) : float :=
  if wx =? 0 then nan
  else
    let md := fmod vx wx in
    if negb (md =? 0) then
      if xorb (wx <? 0) (md <? 0) then md + wx else md
    else copysign 0 wx.

(** Coordinates: a float, or an integer, which numpy holds as an [int64]
    (a numpy integer, or a Python [int] in the range of [int64]):
    [Int z] is the [int64] of value [z], from [- 2 ^ 63] to [2 ^ 63 - 1].
    A Python [int] outside this range is not an [int64] and is not a
    [number]. *)
Inductive number :=
  | Int (z : Z)
  | Float (f : float).

(** [int64] arithmetic wraps around. *)
Definition wrap64 (z : Z) : Z := ((z + 2 ^ 63) mod 2 ^ 64 - 2 ^ 63)%Z.

(** The conversion of an integer to [float64], rounded to nearest even. *)
Definition float_of_int (z : Z) : float :=
  SF2Prim (binary_normalize prec emax z 0 false).

Definition float64 (n : number) : float :=
  match n with
  | Int z => float_of_int z
  | Float f => f
  end.

(** [np.abs]: on an [int64] the absolute value of the least integer wraps
    around to itself. *)
Definition np_abs (n : number) : number :=
  match n with
  | Int z => Int (wrap64 (Z.abs z))
  | Float f => Float (abs f)
  end.

(** [a < b] with [b] a float: an integer [a] is converted to [float64]. *)
Definition np_less (a : number) (b : float) : bool := float64 a <? b.

(** [a + b]: [int64] on two integers, [float64] otherwise. *)
Definition np_add (a b : number) : number :=
  match a, b with
  | Int x, Int y => Int (wrap64 (x + y))
  | _, _ => Float (float64 a + float64 b)
  end.

(** [np.sqrt]: always a [float64]. *)
Definition np_sqrt (n : number) : float := sqrt (float64 n).

(** Sequences and indexing. *)
Definition point := list number.
Definition matrix := list (list float).

Definition getitem {A} (p : list A) (i : nat) : option A := nth_error p i.

Notation "x <- c ;; k" :=
  (match c with Some x => k | None => None end)
  (at level 61, c at next level, right associativity).

(** A list comprehension [[f(x) for x in l]]: the first element on which
    [f] raises aborts the whole comprehension. *)
Fixpoint comprehension {A B} (f : A -> option B) (l : list A) : option (list B) :=
  match l with
  | [] => Some []
  | x :: t => y <- f x ;; ys <- comprehension f t ;; Some (y :: ys)
  end.

(** ** Constants *)

Definition f_eps : float := 1e-10.

(** ** The library *)

(** numpy's transcendental functions: those the matrix builders call, and
    those the angle extractors call. *)
Class NumpyTrig := {
  radians : float -> float;
  cos : float -> float;
  sin : float -> float
}.

Class NumpyAngles := {
  arctan2 : float -> float -> float;
  degrees : float -> float;
  power : float -> float -> float
}.

Section Library.

Context {npt : NumpyTrig} {npa : NumpyAngles}.

(** [np.power(n, e)] with [e] a Python integer that is not negative:
    [int64] on an integer, the [float64] power otherwise. *)
Definition np_power (n : number) (e : Z) : number :=
  match n with
  | Int z => Int (wrap64 (z ^ e)%Z)
  | Float f => Float (power f (float_of_int e))
  end.

(** [np.arctan2]: on [float64], integers converted. *)
Definition np_arctan2 (a b : number) : float :=
  arctan2 (float64 a) (float64 b).

(** *** Matrices *)

Definition Trans (x y z : float) : matrix :=
  [[1; 0; 0; x];
   [0; 1; 0; y];
   [0; 0; 1; z];
   [0; 0; 0; 1]].

Definition Rot_yz (angle : float) : matrix :=
  let a := radians angle in
  let co := cos a in
  let si := sin a in
  [[1; 0; 0; 0];
   [0; co; - si; 0];
   [0; si; co; 0];
   [0; 0; 0; 1]].

Definition Rot_zx (angle : float) : matrix :=
  let a := radians angle in
  let co := cos a in
  let si := sin a in
  [[co; 0; si; 0];
   [0; 1; 0; 0];
   [- si; 0; co; 0];
   [0; 0; 0; 1]].

Definition Rot_xy (angle : float) : matrix :=
  let a := radians angle in
  let co := cos a in
  let si := sin a in
  [[co; - si; 0; 0];
   [si; co; 0; 0];
   [0; 0; 1; 0];
   [0; 0; 0; 1]].

(** *** Angles for vector p = [x, y, z, w] *)

Definition fAngleYZ (p : point) : option float :=
  y <- getitem p 1 ;;
  z <- getitem p 2 ;;
  if np_less (np_abs y) f_eps && np_less (np_abs z) f_eps then Some nan
  else Some (degrees (np_arctan2 z y)).

Definition fAngleZX (p : point) : option float :=
  x <- getitem p 0 ;;
  z <- getitem p 2 ;;
  if np_less (np_abs x) f_eps && np_less (np_abs z) f_eps then Some nan
  else Some (degrees (np_arctan2 x z)).

Definition fAngleXY (p : point) : option float :=
  x <- getitem p 0 ;;
  y <- getitem p 1 ;;
  if np_less (np_abs x) f_eps && np_less (np_abs y) f_eps then Some nan
  else Some (degrees (np_arctan2 y x)).

Definition fAngleArrYZ (angleArr : list point) : option (list float) :=
  comprehension fAngleYZ angleArr.

Definition fAngleArrZX (angleArr : list point) : option (list float) :=
  comprehension fAngleZX angleArr.

Definition fAngleArrXY (angleArr : list point) : option (list float) :=
  comprehension fAngleXY angleArr.

Definition fAngleXR (p : point) : option float :=
  x <- getitem p 0 ;;
  y <- getitem p 1 ;;
  z <- getitem p 2 ;;
  let r := np_sqrt (np_add (np_power z 2) (np_power y 2)) in
  Some (degrees (np_arctan2 (Float r) x)).

Definition fAngleYR (p : point) : option float :=
  x <- getitem p 0 ;;
  y <- getitem p 1 ;;
  z <- getitem p 2 ;;
  let r := np_sqrt (np_add (np_power z 2) (np_power x 2)) in
  Some (degrees (np_arctan2 (Float r) y)).

Definition fAngleZR (p : point) : option float :=
  x <- getitem p 0 ;;
  y <- getitem p 1 ;;
  z <- getitem p 2 ;;
  let r := np_sqrt (np_add (np_power x 2) (np_power y 2)) in
  Some (degrees (np_arctan2 (Float r) z)).

Definition fAngleArrXR (angleArr : list point) : option (list float) :=
  comprehension fAngleXR angleArr.

Definition fAngleArrYR (angleArr : list point) : option (list float) :=
  comprehension fAngleYR angleArr.

Definition fAngleArrZR (angleArr : list point) : option (list float) :=
  comprehension fAngleZR angleArr.

(** *** Angle ranges

    [toAngle360_with] is [toAngle360] with the [%] operator as a
    parameter, to state what the function does before it reaches [%]. *)

Definition toAngle360_with (rem : float -> float -> float) (angle : float) : float :=
  if is_nan angle then nan
  else
    let a := rem angle 360 in
    if a <? 0 then a + 360 else a.

Definition toAngle360 (angle : float) : float :=
  toAngle360_with float_rem angle.

Definition toAngle180_with (rem : float -> float -> float) (angle : float) : float :=
  let a := toAngle360_with rem angle in
  if 180 <? a then a - 360 else a.

Definition toAngle180 (angle : float) : float :=
  toAngle180_with float_rem angle.

Definition toAngleArr360 (angleArr : list float) : list float :=
  map toAngle360 angleArr.

Definition toAngleArr180 (angleArr : list float) : list float :=
  map toAngle180 angleArr.

End Library.

(** ** Reading matrices *)

Definition entry (M : matrix) (i j : nat) : option float :=
  row <- getitem M i ;; getitem row j.

Definition column (M : matrix) (j : nat) : option (list float) :=
  comprehension (fun row => getitem row j) M.

(** The 2x2 block of [M] on the rows and columns [i] and [j], in that order. *)
Definition block (M : matrix) (i j : nat) : option matrix :=
  a <- entry M i i ;; b <- entry M i j ;;
  c <- entry M j i ;; d <- entry M j j ;;
  Some [[a; b]; [c; d]].

(** ** Element-wise results

    [out] is the sequence of the results of [f] on the elements of [l], in
    order. *)
Definition elementwise {A B} (f : A -> option B) (l : list A) (out : list B) : Prop :=
  length out = length l /\
  forall i x, nth_error l i = Some x ->
    exists y, nth_error out i = Some y /\ f x = Some y.

(** ** What the library assumes of numpy

    The properties of [np.arctan2], [np.degrees] and [np.power] (C99
    Annex F for [atan2] and [pow]) that the theorems below use as
    hypotheses. *)

(** Not a NaN, and the sign bit is clear. *)
Definition nonneg (x : float) : Prop := is_nan x = false /\ get_sign x = false.

Definition arctan2_degrees_defined (npa : NumpyAngles) : Prop :=
  forall a b, is_finite a = true -> is_finite b = true ->
    is_nan (degrees (arctan2 a b)) = false.

Definition arctan2_degrees_upper (npa : NumpyAngles) : Prop :=
  forall r x, nonneg r -> is_finite x = true ->
    (0 <=? degrees (arctan2 r x)) && (degrees (arctan2 r x) <=? 180) = true.

Definition arctan2_degrees_origin (npa : NumpyAngles) : Prop :=
  degrees (arctan2 0 0) = 0.

Definition power_square_nonneg (npa : NumpyAngles) : Prop :=
  forall z, is_finite z = true -> nonneg (power z 2).

Definition power_square_zero (npa : NumpyAngles) : Prop :=
  power 0 2 = 0.

(** A small backend that satisfies them: [arctan2] is C99's on the x axis
    (0 or pi by the sign of [x], with the sign of [y]) and gives the same
    angle off the axis; [degrees] multiplies by 180/pi; [power] squares. *)
Definition axis_pi : float := 3.141592653589793.

Definition axis_arctan2 (y x : float) : float :=
  if is_nan y || is_nan x then nan
  else
    let m := if get_sign x then axis_pi else 0 in
    if get_sign y then - m else m.

Definition Axis : NumpyAngles := {|
  arctan2 := axis_arctan2;
  degrees := fun x => x * 57.29577951308232;
  power := fun x _ => x * x
|}.

(** ** Finite binary64 values as integers

    Every finite binary64 number is an integer multiple of [2 ^ -1074]:
    [SFval x] is that integer, the exact value of [x] times [2 ^ 1074],
    and [Fval] reads it off a primitive float. *)

Local Open Scope Z_scope.

(** The integer of 1.0. *)
Definition scale : Z := 2 ^ 1074.

Definition SFval (x : spec_float) : Z :=
  match x with
  | S754_finite s m e => cond_Zopp s (Zpos m * 2 ^ (e + 1074))
  | _ => 0
  end.

Definition SFfinite (x : spec_float) : bool :=
  match x with
  | S754_zero _ | S754_finite _ _ _ => true
  | _ => false
  end.

Definition Fval (x : float) : Z := SFval (Prim2SF x).

(** A nonzero integer [V] rounded to a multiple [V'] of [u], one of the
    two multiples that enclose it, and [V] itself when it is a multiple. *)
Definition rounds_to (u V V' : Z) : Prop :=
  0 < u /\ V' mod u = 0 /\ V / u * u <= V' <= V / u * u + u /\ (V mod u = 0 -> V' = V).

(** [+0], or a positive number at most 360. *)
Definition in_0_360 (a : spec_float) : Prop :=
  a = S754_zero false \/
  exists ma ea, a = S754_finite false ma ea /\ bounded prec emax ma ea = true /\
                Zpos ma * 2 ^ (ea + 1074) <= 360 * scale.

(** A number, infinite or not, with sign bit [s]. *)
Definition SFsign_is (s : bool) (a : spec_float) : Prop :=
  match a with
  | S754_zero s' | S754_infinity s' | S754_finite s' _ _ => s' = s
  | S754_nan => False
  end.

(** ** Transposition

    The transpose of a matrix of four columns (numpy's [M.T]). *)

Definition transpose (M : matrix) : option matrix :=
  comprehension (column M) [0; 1; 2; 3]%nat.

(** A small backend for the matrix builders: the small-angle
    approximation, with angles taken in radians. *)
Definition SmallAngle : NumpyTrig := {|
  radians := fun x => x;
  cos := fun _ => 1%float;
  sin := fun x => x
|}.

(** Parity of numpy's [radians], [cos] and [sin]. *)
Definition trig_parity (npt : NumpyTrig) : Prop :=
  (forall a, radians (- a)%float = (- radians a)%float) /\
  (forall x, cos (- x)%float = cos x) /\
  (forall x, sin (- x)%float = (- sin x)%float).

(** An angle whose normalization is not rounded: it is not negative, or
    it is a multiple of [2 ^ -44] (every integer below [2 ^ 53] is). *)
Definition exact_angle (a : float) : Prop :=
  (0 <= Fval a)%Z \/ (2 ^ 1030 | Fval a)%Z.

(** ** Coordinates and what the specification says of them *)

Local Open Scope Z_scope.

Definition int64 (z : Z) : Prop := - 2 ^ 63 <= z < 2 ^ 63.

(** A finite coordinate: a finite float, or an integer of [int64]. *)
Definition finite (n : number) : Prop :=
  match n with
  | Int z => int64 z
  | Float f => is_finite f = true
  end.

(** The least [int64], the one integer whose absolute value is not an
    [int64]. *)
Definition int64_min : number := Int (- 2 ^ 63).

(** The exact value of a finite coordinate, in units of [2 ^ -1074]. *)
Definition value (n : number) : Z :=
  match n with
  | Int z => z * scale
  | Float f => Fval f
  end.

(** Below the tolerance: the absolute value of the coordinate is strictly
    below [f_eps] (for an integer: it is 0). *)
Definition below_eps (n : number) : Prop := Z.abs (value n) < Fval f_eps.

(** The squares of two coordinates and their sum stay within [int64]. *)
Definition no_overflow (a b : number) : Prop :=
  match a, b with
  | Int x, Int y => x * x + y * y < 2 ^ 63
  | Int x, Float _ => x * x < 2 ^ 63
  | Float _, Int y => y * y < 2 ^ 63
  | Float _, Float _ => True
  end.

(** A zero coordinate, and the angle of an axis-to-radius extractor at
    the origin, by the zero on its axis. *)
Definition zero_coordinate (n : number) : Prop :=
  n = Int 0 \/ n = Float 0 \/ n = Float (-0).

Definition origin_angle (c : number) : float :=
  match c with
  | Int _ => 0
  | Float f => if get_sign f then 180 else 0
  end.

Local Open Scope float_scope.

Section Norm.

Context {npa : NumpyAngles}.

(** The Euclidean norm of two coordinates as the specification words it:
    the square root of the sum of the squares, in [float64], the squares
    and the sum of integers being the integers' own. *)
Definition exact_square (n : number) : number :=
  match n with
  | Int z => Int (z * z)
  | Float f => Float (power f 2)
  end.

Definition exact_add (a b : number) : number :=
  match a, b with
  | Int x, Int y => Int (x + y)
  | _, _ => Float (float64 a + float64 b)
  end.

Definition euclidean_norm (a b : number) : float :=
  sqrt (float64 (exact_add (exact_square a) (exact_square b))).

End Norm.

(** C99 on the negative zero: [atan2(+0, -0)] is pi, and [pow(-0, 2)] is
    [+0]. *)
Definition arctan2_degrees_origin_neg (npa : NumpyAngles) : Prop :=
  degrees (arctan2 0 (-0)) = 180.

Definition power_square_neg_zero (npa : NumpyAngles) : Prop :=
  power (-0) 2 = 0.

(** What the tolerance test of the in-plane extractors takes for zero: a
    coordinate below the tolerance, and the least [int64]. *)
Definition taken_for_zero (n : number) : Prop :=
  below_eps n \/ n = int64_min.

(** ** Binary64 rounding

    What [SpecFloat] computes when it rounds, and the order of finite
    numbers. *)

Module Binary64.

Local Open Scope Z_scope.

Lemma digits2_pos_bounds (p : positive) :
  2 ^ (Zpos (digits2_pos p) - 1) <= Zpos p < 2 ^ Zpos (digits2_pos p).
Proof.
  induction p as [p IH | p IH |]; cbn [digits2_pos].
  - rewrite Pos2Z.inj_succ.
    replace (Z.succ (Zpos (digits2_pos p)) - 1) with (Zpos (digits2_pos p) - 1 + 1) by lia.
    rewrite Z.pow_succ_r by lia. rewrite Z.pow_add_r by lia.
    rewrite Pos2Z.inj_xI. change (2 ^ 1) with 2.
    revert IH. generalize (2 ^ (Zpos (digits2_pos p) - 1)) (2 ^ Zpos (digits2_pos p)). lia.
  - rewrite Pos2Z.inj_succ.
    replace (Z.succ (Zpos (digits2_pos p)) - 1) with (Zpos (digits2_pos p) - 1 + 1) by lia.
    rewrite Z.pow_succ_r by lia. rewrite Z.pow_add_r by lia.
    change (Zpos p~0) with (2 * Zpos p). change (2 ^ 1) with 2.
    revert IH. generalize (2 ^ (Zpos (digits2_pos p) - 1)) (2 ^ Zpos (digits2_pos p)). lia.
  - cbn. lia.
Qed.

Lemma shr_1_spec (mrs : shr_record) :
  0 <= shr_m mrs ->
  shr_m (shr_1 mrs) = shr_m mrs / 2 /\
  shr_r (shr_1 mrs) = Z.odd (shr_m mrs) /\
  shr_s (shr_1 mrs) = shr_r mrs || shr_s mrs.
Proof.
  destruct mrs as [m r s]. cbn [shr_m shr_r shr_s]. intros Hm.
  destruct m as [| p | p]; [| | lia].
  - cbn. auto.
  - destruct p as [p | p |]; cbn [shr_1 shr_m shr_r shr_s].
    + rewrite Pos2Z.inj_xI. repeat split.
      apply Z.div_unique with (r := 1); lia.
    + change (Zpos p~0) with (2 * Zpos p). repeat split.
      apply Z.div_unique with (r := 0); lia.
    + repeat split.
Qed.

(** Shifting right by [n] bits divides by [2 ^ n]; the two low bits of
    the record stay clear when the shifted-out bits are all zero. *)
Lemma iter_shr_1_spec (n : positive) : forall mrs,
  0 <= shr_m mrs ->
  let mrs' := iter_pos shr_1 n mrs in
  shr_m mrs' = shr_m mrs / 2 ^ Zpos n /\
  (shr_m mrs mod 2 ^ Zpos n = 0 -> shr_r mrs = false -> shr_s mrs = false ->
   shr_r mrs' = false /\ shr_s mrs' = false).
Proof.
  assert (step : forall mrs, 0 <= shr_m mrs ->
    shr_m (shr_1 mrs) = shr_m mrs / 2 ^ 1 /\
    (shr_m mrs mod 2 ^ 1 = 0 -> shr_r mrs = false -> shr_s mrs = false ->
     shr_r (shr_1 mrs) = false /\ shr_s (shr_1 mrs) = false)).
  { intros mrs Hm. destruct (shr_1_spec mrs Hm) as (H1 & H2 & H3).
    change (2 ^ 1) with 2. split; [exact H1|].
    intros Hmod Hr Hs. rewrite H2, H3, Hr, Hs. split; [|reflexivity].
    rewrite Zmod_odd in Hmod. destruct (Z.odd (shr_m mrs)); [discriminate | reflexivity]. }
  assert (compose : forall a b (f g : shr_record -> shr_record),
    0 < a -> 0 < b ->
    (forall mrs, 0 <= shr_m mrs ->
      shr_m (f mrs) = shr_m mrs / 2 ^ a /\
      (shr_m mrs mod 2 ^ a = 0 -> shr_r mrs = false -> shr_s mrs = false ->
       shr_r (f mrs) = false /\ shr_s (f mrs) = false)) ->
    (forall mrs, 0 <= shr_m mrs ->
      shr_m (g mrs) = shr_m mrs / 2 ^ b /\
      (shr_m mrs mod 2 ^ b = 0 -> shr_r mrs = false -> shr_s mrs = false ->
       shr_r (g mrs) = false /\ shr_s (g mrs) = false)) ->
    forall mrs, 0 <= shr_m mrs ->
      shr_m (g (f mrs)) = shr_m mrs / 2 ^ (a + b) /\
      (shr_m mrs mod 2 ^ (a + b) = 0 -> shr_r mrs = false -> shr_s mrs = false ->
       shr_r (g (f mrs)) = false /\ shr_s (g (f mrs)) = false)).
  { intros a b f g Ha Hb Hf Hg mrs Hm.
    destruct (Hf mrs Hm) as [Hf1 Hf2].
    assert (Hfm : 0 <= shr_m (f mrs)).
    { rewrite Hf1. apply Z.div_pos; [lia | apply Z.pow_pos_nonneg; lia]. }
    destruct (Hg (f mrs) Hfm) as [Hg1 Hg2].
    assert (Hpa : 0 < 2 ^ a) by (apply Z.pow_pos_nonneg; lia).
    assert (Hpb : 0 < 2 ^ b) by (apply Z.pow_pos_nonneg; lia).
    rewrite Z.pow_add_r by lia.
    split.
    - rewrite Hg1, Hf1. apply Z.div_div; lia.
    - intros Hmod Hr Hs.
      rewrite Z.rem_mul_r in Hmod by lia.
      pose proof (Z.mod_pos_bound (shr_m mrs) (2 ^ a) Hpa).
      pose proof (Z.mod_pos_bound (shr_m mrs / 2 ^ a) (2 ^ b) Hpb).
      assert (Ha0 : shr_m mrs mod 2 ^ a = 0) by nia.
      assert (Hb0 : (shr_m mrs / 2 ^ a) mod 2 ^ b = 0) by nia.
      destruct (Hf2 Ha0 Hr Hs) as [Hr' Hs'].
      apply Hg2; [rewrite Hf1; exact Hb0 | exact Hr' | exact Hs']. }
  induction n as [n IH | n IH |]; intros mrs Hm; cbn [iter_pos].
  - rewrite Pos2Z.inj_xI.
    replace (2 * Zpos n + 1) with (1 + (Zpos n + Zpos n)) by lia.
    apply (compose 1 (Zpos n + Zpos n) shr_1 (fun r => iter_pos shr_1 n (iter_pos shr_1 n r)));
      [lia | lia | exact step | | exact Hm].
    apply (compose (Zpos n) (Zpos n)); [lia | lia | exact IH | exact IH].
  - change (Zpos n~0) with (2 * Zpos n).
    replace (2 * Zpos n) with (Zpos n + Zpos n) by lia.
    apply (compose (Zpos n) (Zpos n)); [lia | lia | exact IH | exact IH | exact Hm].
  - apply step. exact Hm.
Qed.

Lemma fexp64 (e : Z) : fexp prec emax e = Z.max (e - 53) (-1074).
Proof. reflexivity. Qed.

Lemma pow2_pos (k : Z) : 0 <= k -> 0 < 2 ^ k.
Proof. intros. apply Z.pow_pos_nonneg; lia. Qed.

Lemma digits2_pos_unique (p : positive) (k : Z) :
  2 ^ (k - 1) <= Zpos p < 2 ^ k -> Zpos (digits2_pos p) = k.
Proof.
  intros [Hlo Hhi]. destruct (digits2_pos_bounds p) as [Dlo Dhi].
  set (d := Zpos (digits2_pos p)) in *.
  assert (Hk : 0 < k).
  { destruct (Z_lt_le_dec 0 k) as [|Hk]; [assumption|].
    destruct (Z.eq_dec k 0) as [->|].
    - cbn in Hhi. lia.
    - rewrite Z.pow_neg_r in Hhi by lia. lia. }
  destruct (Z_lt_le_dec d k) as [Hdk|Hdk].
  - assert (2 ^ d <= 2 ^ (k - 1)) by (apply Z.pow_le_mono_r; lia). lia.
  - destruct (Z.eq_dec d k) as [|Hne]; [assumption|].
    assert (2 ^ k <= 2 ^ (d - 1)) by (apply Z.pow_le_mono_r; lia). lia.
Qed.

Lemma iter_xO_spec (m d : positive) :
  Zpos (Pos.iter xO m d) = Zpos m * 2 ^ Zpos d.
Proof.
  induction d as [|d IH] using Pos.peano_ind.
  - cbn [Pos.iter]. change (2 ^ 1) with 2. lia.
  - rewrite Pos.iter_succ. change (Zpos (Pos.iter xO m d)~0) with (2 * Zpos (Pos.iter xO m d)).
    rewrite IH, Pos2Z.inj_succ, Z.pow_succ_r by lia. ring.
Qed.

Lemma shl_align_spec (mx : positive) (ex ex' : Z) :
  snd (shl_align mx ex ex') = Z.min ex ex' /\
  Zpos (fst (shl_align mx ex ex')) = Zpos mx * 2 ^ (ex - Z.min ex ex').
Proof.
  unfold shl_align. destruct (ex' - ex) as [|d|d] eqn:E; cbn [fst snd].
  - replace (Z.min ex ex') with ex by lia. rewrite Z.sub_diag. cbn. lia.
  - replace (Z.min ex ex') with ex by lia. rewrite Z.sub_diag. cbn. lia.
  - replace (Z.min ex ex') with ex' by lia. split; [reflexivity|].
    rewrite iter_xO_spec. f_equal. f_equal. lia.
Qed.

Lemma rounds_to_le (u V V' N : Z) :
  rounds_to u V V' -> V <= N * u -> V' <= N * u.
Proof.
  intros (Hu & _ & [_ Hhi] & Hex) HN.
  pose proof (Z.div_mod V u ltac:(lia)) as Hdm.
  pose proof (Z.mod_pos_bound V u Hu) as Hmb.
  destruct (Z.eq_dec (V mod u) 0) as [H0|H0].
  - rewrite (Hex H0). exact HN.
  - assert (V / u < N) by nia. nia.
Qed.

Lemma rounds_to_ge (u V V' N : Z) :
  rounds_to u V V' -> N * u <= V -> N * u <= V'.
Proof.
  intros (Hu & _ & [Hlo _] & Hex) HN.
  pose proof (Z.div_mod V u ltac:(lia)) as Hdm.
  pose proof (Z.mod_pos_bound V u Hu) as Hmb.
  assert (N <= V / u) by nia. nia.
Qed.

Lemma pow2_split (a b : Z) : 0 <= a -> 0 <= b -> 2 ^ (a + b) = 2 ^ a * 2 ^ b.
Proof. intros. apply Z.pow_add_r; assumption. Qed.

Lemma digits2_pos_shift (m mz : positive) (k : Z) :
  0 <= k -> Zpos mz = Zpos m * 2 ^ k ->
  Zpos (digits2_pos mz) = Zpos (digits2_pos m) + k.
Proof.
  intros Hk Hmz. apply digits2_pos_unique. rewrite Hmz.
  destruct (digits2_pos_bounds m) as [Dlo Dhi].
  replace (Zpos (digits2_pos m) + k - 1) with (Zpos (digits2_pos m) - 1 + k) by lia.
  rewrite !pow2_split by lia.
  pose proof (pow2_pos k Hk). nia.
Qed.

(** Rounding a positive integer mantissa that stays in range: the text of
    [binary_round], case by case. *)
Lemma binary_round_exact (s : bool) (m : positive) (e : Z) :
  -1074 <= e -> Zpos (digits2_pos m) <= 53 -> Zpos (digits2_pos m) + e <= 1024 ->
  exists mz ez,
    binary_round prec emax s m e = S754_finite s mz ez /\
    bounded prec emax mz ez = true /\
    Zpos mz * 2 ^ (ez + 1074) = Zpos m * 2 ^ (e + 1074).
Proof.
  intros He Hd Hov. unfold binary_round.
  set (fe := fexp prec emax (Zpos (digits2_pos m) + e)).
  assert (Hfe : fe = Z.max (Zpos (digits2_pos m) + e - 53) (-1074)) by apply fexp64.
  destruct (shl_align_spec m e fe) as [Hez Hmz].
  destruct (shl_align m e fe) as [mz ez]. cbn [fst snd] in Hez, Hmz.
  assert (Emin : Z.min e fe = fe) by lia.
  rewrite Emin in Hez, Hmz. subst ez.
  assert (Hdz : Zpos (digits2_pos mz) = Zpos (digits2_pos m) + (e - fe))
    by (apply digits2_pos_shift; [lia | exact Hmz]).
  assert (Hn : fexp prec emax (Zpos (digits2_pos mz) + fe) - fe = 0).
  { rewrite fexp64, Hdz. lia. }
  exists mz, fe.
  unfold binary_round_aux, shr_fexp. cbn [Zdigits2 shr_record_of_loc].
  rewrite Hn. cbn [shr shr_m loc_of_shr_record round_nearest_even Zdigits2 shr_record_of_loc].
  rewrite Hn. cbn [shr shr_m].
  assert (Hle : (fe <=? emax - prec) = true) by (apply Z.leb_le; change (emax - prec) with 971; lia).
  rewrite Hle. split; [reflexivity|]. split.
  - unfold bounded, canonical_mantissa. rewrite Hle, andb_true_r. apply Z.eqb_eq. lia.
  - rewrite Hmz. rewrite <- Z.mul_assoc, <- pow2_split by lia. f_equal. f_equal. lia.
Qed.

Lemma round_nearest_even_bounds (mrs : shr_record) :
  let m' := round_nearest_even (shr_m mrs) (loc_of_shr_record mrs) in
  shr_m mrs <= m' <= shr_m mrs + 1 /\
  (shr_r mrs = false -> shr_s mrs = false -> m' = shr_m mrs).
Proof.
  destruct mrs as [m [|] [|]]; cbn [shr_m shr_r shr_s loc_of_shr_record round_nearest_even];
    try destruct (Z.even m); split; try lia; try discriminate; auto.
Qed.

Lemma binary_round_inexact (s : bool) (m : positive) (e : Z) :
  -1074 <= e -> 53 < Zpos (digits2_pos m) -> Zpos (digits2_pos m) + e <= 1023 ->
  exists mz ez,
    binary_round prec emax s m e = S754_finite s mz ez /\
    bounded prec emax mz ez = true /\
    rounds_to (2 ^ (e + (Zpos (digits2_pos m) - 53) + 1074))
              (Zpos m * 2 ^ (e + 1074)) (Zpos mz * 2 ^ (ez + 1074)).
Proof.
  intros He Hd Hov. unfold binary_round.
  destruct (digits2_pos_bounds m) as [Dlo Dhi].
  set (d := Zpos (digits2_pos m)) in *.
  set (fe := fexp prec emax (d + e)).
  assert (Hfe : fe = d + e - 53) by (unfold fe; rewrite fexp64; lia).
  destruct (shl_align_spec m e fe) as [Hez Hmz].
  destruct (shl_align m e fe) as [mz ez]. cbn [fst snd] in Hez, Hmz.
  assert (Emin : Z.min e fe = e) by lia.
  rewrite Emin in Hez, Hmz. subst ez.
  rewrite Z.sub_diag in Hmz. change (2 ^ 0) with 1 in Hmz.
  assert (mz = m) by (apply Pos2Z.inj; lia). subst mz. clear Hmz Emin.
  (* first shift: by d - 53 bits *)
  destruct (fe - e) as [|np|np] eqn:En; try lia.
  assert (E1 : shr_fexp prec emax (Zpos m) e loc_Exact
               = (iter_pos shr_1 np (Build_shr_record (Zpos m) false false), e + Zpos np)).
  { unfold shr_fexp. cbn [Zdigits2 shr_record_of_loc]. fold d. fold fe.
    rewrite En. reflexivity. }
  unfold binary_round_aux. rewrite E1. clear E1.
  pose proof (iter_shr_1_spec np (Build_shr_record (Zpos m) false false)) as Hsh.
  cbn [shr_m shr_r shr_s] in Hsh. specialize (Hsh ltac:(lia)). cbv zeta in Hsh.
  set (mrs' := iter_pos shr_1 np (Build_shr_record (Zpos m) false false)) in *.
  destruct Hsh as [Hm1 Hbits].
  pose proof (round_nearest_even_bounds mrs') as [Hrb Hrx]. cbv zeta in Hrx.
  set (m2 := round_nearest_even (shr_m mrs') (loc_of_shr_record mrs')) in *.
  assert (Hpn : 0 < 2 ^ Zpos np) by (apply pow2_pos; lia).
  assert (Hd1 : 2 ^ (d - 1) = 2 ^ 52 * 2 ^ Zpos np).
  { rewrite <- pow2_split by lia. f_equal. lia. }
  assert (Hd2 : 2 ^ d = 2 ^ 53 * 2 ^ Zpos np).
  { rewrite <- pow2_split by lia. f_equal. lia. }
  assert (Hm1b : 2 ^ 52 <= shr_m mrs' < 2 ^ 53).
  { rewrite Hm1. split.
    - apply Z.div_le_lower_bound; lia.
    - apply Z.div_lt_upper_bound; lia. }
  (* the value of the result, whatever the carry *)
  assert (Hval : rounds_to (2 ^ (e + (d - 53) + 1074)) (Zpos m * 2 ^ (e + 1074))
                           (m2 * 2 ^ (e + (d - 53) + 1074))).
  { replace (e + (d - 53) + 1074) with (Zpos np + (e + 1074)) by lia.
    rewrite pow2_split by lia.
    assert (Hpe : 0 < 2 ^ (e + 1074)) by (apply pow2_pos; lia).
    assert (Hdiv : Zpos m * 2 ^ (e + 1074) / (2 ^ Zpos np * 2 ^ (e + 1074)) = shr_m mrs').
    { rewrite Z.div_mul_cancel_r by lia. symmetry. exact Hm1. }
    assert (Hmod : Zpos m * 2 ^ (e + 1074) mod (2 ^ Zpos np * 2 ^ (e + 1074))
                   = (Zpos m mod 2 ^ Zpos np) * 2 ^ (e + 1074)).
    { rewrite Z.mul_mod_distr_r by lia. reflexivity. }
    unfold rounds_to. rewrite Hdiv, Hmod. repeat split.
    - nia.
    - apply Z.mod_mul. nia.
    - nia.
    - nia.
    - intros H0. assert (Hm0 : Zpos m mod 2 ^ Zpos np = 0) by nia.
      destruct (Hbits Hm0 eq_refl eq_refl) as [Hr Hs].
      rewrite (Hrx Hr Hs), Hm1.
      pose proof (Z.div_mod (Zpos m) (2 ^ Zpos np) ltac:(lia)) as Hdm.
      rewrite Hm0 in Hdm. nia. }
  (* second shift: one bit when the rounding carried to 2^53 *)
  destruct m2 as [|p2|p2]; try lia.
  assert (Hcases : Zpos p2 < 2 ^ 53 \/ Zpos p2 = 2 ^ 53) by lia.
  unfold shr_fexp. cbn [Zdigits2 shr_record_of_loc].
  destruct Hcases as [Hlt | Heq].
  - assert (Hd53 : Zpos (digits2_pos p2) = 53).
    { apply digits2_pos_unique. change (53 - 1) with 52. lia. }
    rewrite Hd53, fexp64.
    replace (Z.max (53 + (e + Zpos np) - 53) (-1074) - (e + Zpos np)) with 0 by lia.
    cbn [shr shr_m].
    assert (Hle : (e + Zpos np <=? emax - prec) = true)
      by (apply Z.leb_le; change (emax - prec) with 971; lia).
    rewrite Hle. exists p2, (e + Zpos np). split; [reflexivity|]. split.
    + unfold bounded, canonical_mantissa. rewrite Hle, andb_true_r, Hd53, fexp64.
      apply Z.eqb_eq. lia.
    + replace (e + Zpos np + 1074) with (e + (d - 53) + 1074) by lia. exact Hval.
  - assert (Ep2 : p2 = 9007199254740992%positive) by (apply Pos2Z.inj; exact Heq).
    subst p2. cbn [digits2_pos Pos.succ]. rewrite fexp64.
    replace (Z.max (54 + (e + Zpos np) - 53) (-1074) - (e + Zpos np)) with 1 by lia.
    cbn [shr iter_pos shr_1 shr_m].
    assert (Hle : (e + Zpos np + 1 <=? emax - prec) = true)
      by (apply Z.leb_le; change (emax - prec) with 971; lia).
    rewrite Hle. exists 4503599627370496%positive, (e + Zpos np + 1).
    split; [reflexivity|]. split.
    + unfold bounded, canonical_mantissa. rewrite Hle, andb_true_r.
      cbn [digits2_pos Pos.succ]. rewrite fexp64. apply Z.eqb_eq. lia.
    + replace (e + Zpos np + 1 + 1074) with (1 + (e + (d - 53) + 1074)) by lia.
      rewrite (pow2_split 1 (e + (d - 53) + 1074)) by lia.
      replace (Zpos 4503599627370496 * (2 ^ 1 * 2 ^ (e + (d - 53) + 1074)))
        with (Zpos 9007199254740992 * 2 ^ (e + (d - 53) + 1074)) by (change (2 ^ 1) with 2; lia).
      exact Hval.
Qed.

Lemma binary_round_spec (s : bool) (m : positive) (e : Z) :
  -1074 <= e -> Zpos (digits2_pos m) + e <= 1023 ->
  exists mz ez,
    binary_round prec emax s m e = S754_finite s mz ez /\
    bounded prec emax mz ez = true /\
    rounds_to (2 ^ (e + Z.max (Zpos (digits2_pos m) - 53) 0 + 1074))
              (Zpos m * 2 ^ (e + 1074)) (Zpos mz * 2 ^ (ez + 1074)).
Proof.
  intros He Hov. destruct (Z_le_gt_dec (Zpos (digits2_pos m)) 53) as [Hd | Hd].
  - destruct (binary_round_exact s m e He Hd ltac:(lia)) as (mz & ez & Hr & Hb & Hv).
    exists mz, ez. split; [exact Hr|]. split; [exact Hb|].
    replace (Z.max (Zpos (digits2_pos m) - 53) 0) with 0 by lia.
    rewrite Z.add_0_r, Hv.
    assert (Hu : 0 < 2 ^ (e + 1074)) by (apply pow2_pos; lia).
    unfold rounds_to. rewrite Z.mod_mul, Z.div_mul by lia. repeat split; lia.
  - destruct (binary_round_inexact s m e He ltac:(lia) Hov) as (mz & ez & Hr & Hb & Hv).
    exists mz, ez. split; [exact Hr|]. split; [exact Hb|].
    replace (Z.max (Zpos (digits2_pos m) - 53) 0) with (Zpos (digits2_pos m) - 53) by lia.
    exact Hv.
Qed.

Lemma bounded_facts (m : positive) (e : Z) :
  bounded prec emax m e = true ->
  -1074 <= e <= 971 /\ Zpos m < 2 ^ 53 /\ (e = -1074 \/ 2 ^ 52 <= Zpos m) /\
  Zpos (digits2_pos m) <= 53.
Proof.
  unfold bounded, canonical_mantissa. intros H.
  apply andb_true_iff in H. destruct H as [Hc He].
  apply Z.eqb_eq in Hc. apply Z.leb_le in He. change (emax - prec) with 971 in He.
  rewrite fexp64 in Hc.
  destruct (digits2_pos_bounds m) as [Dlo Dhi].
  set (d := Zpos (digits2_pos m)) in *.
  assert (Hd : d <= 53) by lia.
  assert (2 ^ d <= 2 ^ 53) by (apply Z.pow_le_mono_r; lia).
  repeat split; try lia.
  destruct (Z.eq_dec e (-1074)) as [|Hne]; [left; assumption | right].
  assert (d = 53) by lia. replace (d - 1) with 52 in Dlo by lia. exact Dlo.
Qed.

Lemma finite_val_lt (m1 m2 : positive) (e1 e2 : Z) :
  bounded prec emax m1 e1 = true -> bounded prec emax m2 e2 = true ->
  e1 < e2 -> Zpos m1 * 2 ^ (e1 + 1074) < Zpos m2 * 2 ^ (e2 + 1074).
Proof.
  intros H1 H2 He.
  destruct (bounded_facts _ _ H1) as (He1 & Hm1 & _ & _).
  destruct (bounded_facts _ _ H2) as (He2 & _ & [Hs2 | Hm2] & _); [lia|].
  replace (e2 + 1074) with ((e2 - e1 - 1) + (1 + (e1 + 1074))) by lia.
  rewrite (pow2_split (e2 - e1 - 1)), (pow2_split 1) by lia.
  change (2 ^ 1) with 2.
  pose proof (pow2_pos (e1 + 1074) ltac:(lia)) as Hu.
  pose proof (pow2_pos (e2 - e1 - 1) ltac:(lia)) as Hk.
  change (2 ^ 53) with (2 * 2 ^ 52) in Hm1.
  assert (Hc : 0 < 2 ^ 52) by reflexivity.
  revert Hm1 Hm2 Hu Hk Hc.
  generalize (2 ^ (e1 + 1074)) (2 ^ (e2 - e1 - 1)) (2 ^ 52) (Zpos m1) (Zpos m2).
  intros u k c a b Ha Hb Hu Hk Hc.
  assert (a * u < 2 * c * u) by nia.
  assert (c * u <= b * u) by nia.
  assert (0 <= b * u) by nia.
  assert (b * u * 1 <= b * u * k) by (apply Z.mul_le_mono_nonneg_l; lia).
  lia.
Qed.

Lemma finite_val_compare (m1 m2 : positive) (e1 e2 : Z) :
  bounded prec emax m1 e1 = true -> bounded prec emax m2 e2 = true ->
  match e1 ?= e2 with
  | Lt => Lt
  | Gt => Gt
  | Eq => Pos.compare_cont Eq m1 m2
  end = (Zpos m1 * 2 ^ (e1 + 1074) ?= Zpos m2 * 2 ^ (e2 + 1074)).
Proof.
  intros H1 H2. destruct (Z.compare_spec e1 e2) as [-> | Hlt | Hgt].
  - destruct (bounded_facts _ _ H2) as (He2 & _).
    pose proof (pow2_pos (e2 + 1074) ltac:(lia)) as Hu.
    change (Pos.compare_cont Eq m1 m2) with (Zpos m1 ?= Zpos m2).
    apply Zmult_compare_compat_r. lia.
  - symmetry. apply Z.compare_lt_iff. apply finite_val_lt; assumption.
  - symmetry. apply Z.compare_gt_iff. apply finite_val_lt; assumption.
Qed.

(** On finite numbers, the order of binary64 is the order of the integers. *)
Lemma SFcompare_val (x y : spec_float) :
  valid_binary x = true -> valid_binary y = true ->
  SFfinite x = true -> SFfinite y = true ->
  SFcompare x y = Some (SFval x ?= SFval y).
Proof.
  destruct x as [sx | sx | | sx mx ex]; try discriminate;
  destruct y as [sy | sy | | sy my ey]; try discriminate;
  cbn [valid_binary SFfinite SFval SFcompare]; intros Hx Hy _ _.
  - reflexivity.
  - destruct (bounded_facts _ _ Hy) as (He & _).
    pose proof (pow2_pos (ey + 1074) ltac:(lia)).
    destruct sy; cbn [cond_Zopp]; f_equal; symmetry;
      [apply Z.compare_gt_iff | apply Z.compare_lt_iff]; nia.
  - destruct (bounded_facts _ _ Hx) as (He & _).
    pose proof (pow2_pos (ex + 1074) ltac:(lia)).
    destruct sx; cbn [cond_Zopp]; f_equal; symmetry;
      [apply Z.compare_lt_iff | apply Z.compare_gt_iff]; nia.
  - destruct (bounded_facts _ _ Hx) as (Hex & _).
    destruct (bounded_facts _ _ Hy) as (Hey & _).
    pose proof (pow2_pos (ex + 1074) ltac:(lia)).
    pose proof (pow2_pos (ey + 1074) ltac:(lia)).
    destruct sx, sy; cbn [cond_Zopp]; f_equal.
    + rewrite Z.compare_opp. rewrite <- (finite_val_compare my mx ey ex Hy Hx).
      rewrite (Z.compare_antisym ex ey).
      destruct (ex ?= ey); cbn [CompOpp]; try reflexivity.
      change (Pos.compare_cont Eq my mx) with (Pos.compare my mx).
      change (Pos.compare_cont Eq mx my) with (Pos.compare mx my).
      rewrite (Pos.compare_antisym mx my). reflexivity.
    + symmetry. apply Z.compare_lt_iff. nia.
    + symmetry. apply Z.compare_gt_iff. nia.
    + apply finite_val_compare; assumption.
Qed.

End Binary64.

Import Binary64.

Local Open Scope Z_scope.

(** ** Primitive floats and their specification *)

Lemma Prim2SF_360 : Prim2SF 360%float = S754_finite false 6333186975989760 (-44).
Proof. vm_compute. reflexivity. Qed.

Lemma Prim2SF_180 : Prim2SF 180%float = S754_finite false 6333186975989760 (-45).
Proof. vm_compute. reflexivity. Qed.

Lemma Prim2SF_m180 : Prim2SF (-180)%float = S754_finite true 6333186975989760 (-45).
Proof. vm_compute. reflexivity. Qed.

Lemma Prim2SF_0 : Prim2SF 0%float = S754_zero false.
Proof. vm_compute. reflexivity. Qed.

Lemma SFcompare_refl (x : spec_float) :
  SFcompare x x = match x with S754_nan => None | _ => Some Eq end.
Proof.
  destruct x as [s | s | | s m e]; cbn [SFcompare]; try reflexivity.
  - destruct s; reflexivity.
  - rewrite Z.compare_refl.
    change (Pos.compare_cont Eq m m) with (Pos.compare m m).
    rewrite Pos.compare_refl. destruct s; reflexivity.
Qed.

Lemma is_nan_spec (x : float) :
  is_nan x = match Prim2SF x with S754_nan => true | _ => false end.
Proof.
  unfold is_nan. rewrite eqb_spec. unfold SFeqb. rewrite SFcompare_refl.
  destruct (Prim2SF x); reflexivity.
Qed.

Lemma is_finite_spec (x : float) : is_finite x = SFfinite (Prim2SF x).
Proof.
  unfold is_finite, is_infinity. rewrite is_nan_spec, eqb_spec, abs_spec.
  change (Prim2SF infinity) with (S754_infinity false).
  destruct (Prim2SF x) as [s | s | | s m e]; reflexivity.
Qed.

Lemma Prim2SF_finite (x : float) :
  is_finite x = true ->
  (exists s, Prim2SF x = S754_zero s) \/
  (exists s m e, Prim2SF x = S754_finite s m e /\ bounded prec emax m e = true).
Proof.
  rewrite is_finite_spec. pose proof (Prim2SF_valid x) as Hv.
  destruct (Prim2SF x) as [s | s | | s m e]; try discriminate; intros _.
  - left. exists s. reflexivity.
  - right. exists s, m, e. split; [reflexivity | exact Hv].
Qed.

Lemma digits2_pos_le (p : positive) (k : Z) :
  0 <= k -> Zpos p < 2 ^ k -> Zpos (digits2_pos p) <= k.
Proof.
  intros Hk Hp. destruct (digits2_pos_bounds p) as [Dlo _].
  assert (H : 2 ^ (Zpos (digits2_pos p) - 1) < 2 ^ k) by lia.
  apply Z.pow_lt_mono_r_iff in H; lia.
Qed.

Lemma binary_normalize_pos (s sz : bool) (r : positive) (e : Z) :
  binary_normalize prec emax (cond_Zopp s (Zpos r)) e sz = binary_round prec emax s r e.
Proof. destruct s; reflexivity. Qed.

(** ** The remainder of a finite angle by 360 *)

Lemma scale_pos : 0 < scale.
Proof. apply pow2_pos. lia. Qed.

Lemma scale_split (k : Z) : 0 <= k <= 1074 -> scale = 2 ^ (1074 - k) * 2 ^ k.
Proof. intros Hk. unfold scale. rewrite <- pow2_split by lia. f_equal. lia. Qed.

Lemma scale_360 (e : Z) :
  -1074 <= e <= -44 ->
  6333186975989760 * 2 ^ (-44 - e) * 2 ^ (e + 1074) = 360 * scale.
Proof.
  intros He. rewrite <- Z.mul_assoc, <- pow2_split by lia.
  replace (-44 - e + (e + 1074)) with 1030 by lia.
  change 6333186975989760 with (360 * 2 ^ 44).
  rewrite <- Z.mul_assoc, <- pow2_split by lia. reflexivity.
Qed.

Lemma fmod_360_unfold (x : float) (s : bool) (m : positive) (e : Z) :
  Prim2SF x = S754_finite s m e ->
  fmod x 360 =
  SF2Prim (binary_normalize prec emax
    (cond_Zopp s ((Zpos m * 2 ^ (e - Z.min e (-44)))
                  mod (6333186975989760 * 2 ^ (-44 - Z.min e (-44)))))
    (Z.min e (-44)) s).
Proof. intros H. unfold fmod. rewrite H, Prim2SF_360. reflexivity. Qed.

Lemma fmod_360_finite (x : float) (s : bool) (m : positive) (e : Z) :
  Prim2SF x = S754_finite s m e ->
  let R := (Zpos m * 2 ^ (e + 1074)) mod (360 * scale) in
  (Prim2SF (fmod x 360) = S754_zero s /\ R = 0) \/
  exists mr er,
    Prim2SF (fmod x 360) = S754_finite s mr er /\
    bounded prec emax mr er = true /\
    Zpos mr * 2 ^ (er + 1074) < 360 * scale /\
    Zpos mr * 2 ^ (er + 1074) = R.
Proof.
  intros H R. pose proof (Prim2SF_valid x) as Hv. rewrite H in Hv. cbn [valid_binary] in Hv.
  destruct (bounded_facts _ _ Hv) as (He & Hm & _ & _).
  rewrite (fmod_360_unfold x s m e H).
  set (e' := Z.min e (-44)).
  set (X := Zpos m * 2 ^ (e - e')).
  set (Y := 6333186975989760 * 2 ^ (-44 - e')).
  assert (Hy : 0 < Y) by (pose proof (pow2_pos (-44 - e') ltac:(lia)); unfold Y; lia).
  assert (Hx : 0 < X) by (pose proof (pow2_pos (e - e') ltac:(lia)); unfold X; lia).
  pose proof (Z.mod_pos_bound X Y Hy) as HR.
  pose proof (pow2_pos (e' + 1074) ltac:(lia)) as Hu.
  assert (ER' : R = X mod Y * 2 ^ (e' + 1074)).
  { unfold R. rewrite <- (scale_360 e') by lia. fold Y.
    replace (Zpos m * 2 ^ (e + 1074)) with (X * 2 ^ (e' + 1074)).
    - apply Z.mul_mod_distr_r; lia.
    - unfold X. rewrite <- Z.mul_assoc, <- pow2_split by lia. f_equal. f_equal. lia. }
  assert (HR53 : X mod Y < 2 ^ 53).
  { destruct (Z_le_gt_dec (-44) e) as [Hge | Hlt].
    - assert (E : -44 - e' = 0) by lia.
      assert (EY : Y = 6333186975989760) by (unfold Y; rewrite E; reflexivity).
      assert (6333186975989760 < 2 ^ 53) by reflexivity. lia.
    - assert (E : e - e' = 0) by lia.
      assert (EX : X = Zpos m) by (unfold X; rewrite E; change (2 ^ 0) with 1; lia).
      pose proof (Z.mod_le X Y ltac:(lia) Hy) as Hle. lia. }
  destruct (X mod Y) as [| r | r] eqn:ER; [| | lia].
  - left. replace (cond_Zopp s 0) with 0 by (destruct s; reflexivity).
    cbn [binary_normalize]. split; [apply Prim2SF_SF2Prim; reflexivity | lia].
  - right. rewrite binary_normalize_pos.
    pose proof (digits2_pos_le r 53 ltac:(lia) HR53) as Hd.
    destruct (binary_round_exact s r e' ltac:(lia) Hd ltac:(lia)) as (mz & ez & Hr & Hb & Hval).
    exists mz, ez. rewrite Hr. split; [apply Prim2SF_SF2Prim; exact Hb|].
    split; [exact Hb|]. rewrite Hval. split; [|lia].
    rewrite <- (scale_360 e') by lia. fold Y. nia.
Qed.

Lemma exponent_upper (m : positive) (e k : Z) :
  bounded prec emax m e = true -> 0 <= k + 53 ->
  Zpos m * 2 ^ (e + 1074) < 2 ^ (k + 53) * scale -> e <= k.
Proof.
  intros Hb Hk Hv. destruct (bounded_facts _ _ Hb) as (He & _ & [Hs | Hm] & _); [lia|].
  unfold scale in Hv. rewrite <- pow2_split in Hv by lia.
  pose proof (pow2_pos (e + 1074) ltac:(lia)) as Hu.
  assert (H : 2 ^ (52 + (e + 1074)) < 2 ^ (k + 53 + 1074)).
  { rewrite (pow2_split 52) by lia. nia. }
  apply Z.pow_lt_mono_r_iff in H; lia.
Qed.

Lemma exponent_lower (m : positive) (e k : Z) :
  bounded prec emax m e = true -> 0 <= k + 53 ->
  2 ^ (k + 53) * scale <= Zpos m * 2 ^ (e + 1074) -> k < e.
Proof.
  intros Hb Hk Hv. destruct (bounded_facts _ _ Hb) as (He & Hm & _ & _).
  unfold scale in Hv. rewrite <- pow2_split in Hv by lia.
  pose proof (pow2_pos (e + 1074) ltac:(lia)) as Hu.
  assert (H : 2 ^ (k + 53 + 1074) < 2 ^ (53 + (e + 1074))).
  { rewrite (pow2_split 53) by lia. nia. }
  apply Z.pow_lt_mono_r_iff in H; lia.
Qed.

(** [r + 360] for a negative remainder [r]: the sum [p] of the aligned
    mantissas, rounded. *)
Lemma SFadd_360_rounds (mr : positive) (er : Z) :
  bounded prec emax mr er = true ->
  Zpos mr * 2 ^ (er + 1074) < 360 * scale ->
  exists p ma ea,
    Zpos p * 2 ^ (er + 1074) = 360 * scale - Zpos mr * 2 ^ (er + 1074) /\
    er + Zpos (digits2_pos p) <= 9 /\
    SFadd prec emax (S754_finite true mr er) (S754_finite false 6333186975989760 (-44))
      = S754_finite false ma ea /\
    bounded prec emax ma ea = true /\
    rounds_to (2 ^ (er + Z.max (Zpos (digits2_pos p) - 53) 0 + 1074))
              (Zpos p * 2 ^ (er + 1074)) (Zpos ma * 2 ^ (ea + 1074)).
Proof.
  intros Hb Hv. destruct (bounded_facts _ _ Hb) as (He & _).
  assert (Her : er <= -44).
  { apply (exponent_upper mr er (-44) Hb); [lia|].
    change (2 ^ (-44 + 53)) with 512. pose proof scale_pos. lia. }
  cbn [SFadd]. replace (Z.min er (-44)) with er by lia.
  destruct (shl_align_spec mr er er) as [_ H1].
  destruct (shl_align_spec 6333186975989760 (-44) er) as [_ H2].
  rewrite Z.min_id, Z.sub_diag in H1. change (2 ^ 0) with 1 in H1.
  replace (Z.min (-44) er) with er in H2 by lia.
  set (m1 := fst (shl_align mr er er)) in *.
  set (m2 := fst (shl_align 6333186975989760 (-44) er)) in *.
  cbn [cond_Zopp].
  pose proof (scale_360 er ltac:(lia)) as Hsc. rewrite <- H2 in Hsc.
  pose proof (pow2_pos (er + 1074) ltac:(lia)) as Hu.
  assert (Hlt : Zpos m1 < Zpos m2) by nia.
  destruct (- Zpos m1 + Zpos m2) as [| p | p] eqn:Ep; try lia.
  cbn [binary_normalize].
  assert (Hp : Zpos p < 2 ^ (9 - er)).
  { replace (9 - er) with (53 + (-44 - er)) by lia. rewrite pow2_split by lia.
    assert (6333186975989760 < 2 ^ 53) by reflexivity.
    pose proof (pow2_pos (-44 - er) ltac:(lia)). nia. }
  pose proof (digits2_pos_le p (9 - er) ltac:(lia) Hp) as Hd.
  destruct (binary_round_spec false p er ltac:(lia) ltac:(lia)) as (ma & ea & Hr & Hba & Hrt).
  exists p, ma, ea. split; [nia|]. split; [lia|].
  split; [exact Hr|]. split; [exact Hba | exact Hrt].
Qed.

(** The rounded sum stays at or below 360. *)
Lemma SFadd_360_spec (mr : positive) (er : Z) :
  bounded prec emax mr er = true ->
  Zpos mr * 2 ^ (er + 1074) < 360 * scale ->
  exists ma ea,
    SFadd prec emax (S754_finite true mr er) (S754_finite false 6333186975989760 (-44))
      = S754_finite false ma ea /\
    bounded prec emax ma ea = true /\
    Zpos ma * 2 ^ (ea + 1074) <= 360 * scale.
Proof.
  intros Hb Hv. destruct (bounded_facts _ _ Hb) as (He & _).
  destruct (SFadd_360_rounds mr er Hb Hv) as (p & ma & ea & Hp & Hd & Hr & Hba & Hrt).
  assert (Her : er <= -44).
  { apply (exponent_upper mr er (-44) Hb); [lia|].
    change (2 ^ (-44 + 53)) with 512. pose proof scale_pos. lia. }
  pose proof (pow2_pos (er + 1074) ltac:(lia)) as Hu.
  exists ma, ea. split; [exact Hr|]. split; [exact Hba|].
  set (k := er + Z.max (Zpos (digits2_pos p) - 53) 0 + 1074) in *.
  assert (Hk : 0 <= k <= 1074) by (unfold k; lia).
  rewrite (scale_split k Hk), Z.mul_assoc.
  apply (rounds_to_le _ _ _ _ Hrt).
  rewrite <- Z.mul_assoc, <- (scale_split k Hk). nia.
Qed.

Lemma float_rem_360_unfold (x : float) :
  float_rem x 360 =
  (let md := fmod x 360 in
   if negb (md =? 0) then if xorb false (md <? 0) then md + 360 else md else 0)%float.
Proof. reflexivity. Qed.

Lemma float_rem_360_spec (x : float) :
  is_finite x = true -> in_0_360 (Prim2SF (float_rem x 360)).
Proof.
  intros Hf. rewrite float_rem_360_unfold. cbv zeta.
  assert (Hz : forall s, Prim2SF (fmod x 360) = S754_zero s ->
    in_0_360 (Prim2SF (if negb (fmod x 360 =? 0)%float
                       then if xorb false (fmod x 360 <? 0)%float
                            then (fmod x 360 + 360)%float else fmod x 360
                       else 0%float))).
  { intros s Hs. rewrite eqb_spec, Hs, Prim2SF_0. cbn [SFeqb SFcompare negb].
    left. exact Prim2SF_0. }
  destruct (Prim2SF_finite x Hf) as [[s Hx] | (s & m & e & Hx & Hb)].
  - apply (Hz s). unfold fmod. rewrite Hx, Prim2SF_360. exact Hx.
  - destruct (fmod_360_finite x s m e Hx) as [[Hs _] | (mr & er & Hr & Hbr & Hvr & _)].
    + apply (Hz s Hs).
    + rewrite eqb_spec, ltb_spec, Hr, Prim2SF_0. right.
      destruct s; cbn [SFeqb SFltb SFcompare negb xorb].
      * rewrite add_spec, Hr, Prim2SF_360. apply SFadd_360_spec; assumption.
      * exists mr, er. rewrite Hr. repeat split; [exact Hbr | lia].
Qed.

Lemma is_finite_not_nan (x : float) : is_finite x = true -> is_nan x = false.
Proof.
  unfold is_finite. intros H. apply negb_true_iff in H.
  apply orb_false_iff in H. tauto.
Qed.

Lemma in_0_360_ltb_0 (a : float) :
  in_0_360 (Prim2SF a) -> (a <? 0)%float = false.
Proof.
  intros [H | (ma & ea & H & _)]; rewrite ltb_spec, H, Prim2SF_0; reflexivity.
Qed.

Lemma toAngle360_finite (x : float) :
  is_finite x = true ->
  toAngle360 x = float_rem x 360 /\ in_0_360 (Prim2SF (toAngle360 x)).
Proof.
  intros Hf. pose proof (float_rem_360_spec x Hf) as Ha.
  assert (E : toAngle360 x = float_rem x 360).
  { unfold toAngle360, toAngle360_with. rewrite (is_finite_not_nan x Hf).
    cbv zeta. rewrite (in_0_360_ltb_0 _ Ha). reflexivity. }
  rewrite E. split; [reflexivity | exact Ha].
Qed.

(** ** Comparisons of finite floats through their integer values *)

Lemma ltb_val (x y : float) :
  is_finite x = true -> is_finite y = true ->
  (x <? y)%float = (Fval x <? Fval y).
Proof.
  intros Hx Hy. rewrite is_finite_spec in Hx, Hy.
  rewrite ltb_spec. unfold SFltb, Fval.
  rewrite (SFcompare_val _ _ (Prim2SF_valid x) (Prim2SF_valid y) Hx Hy).
  unfold Z.ltb. destruct (SFval (Prim2SF x) ?= SFval (Prim2SF y)); reflexivity.
Qed.

Lemma leb_val (x y : float) :
  is_finite x = true -> is_finite y = true ->
  (x <=? y)%float = (Fval x <=? Fval y).
Proof.
  intros Hx Hy. rewrite is_finite_spec in Hx, Hy.
  rewrite leb_spec. unfold SFleb, Fval.
  rewrite (SFcompare_val _ _ (Prim2SF_valid x) (Prim2SF_valid y) Hx Hy).
  unfold Z.leb. destruct (SFval (Prim2SF x) ?= SFval (Prim2SF y)); reflexivity.
Qed.

Lemma Fval_180 : Fval 180 = 180 * scale.
Proof.
  unfold Fval. rewrite Prim2SF_180. cbn [SFval cond_Zopp].
  change (-45 + 1074) with 1029. change 6333186975989760 with (180 * 2 ^ 45).
  rewrite <- Z.mul_assoc, <- pow2_split by lia. reflexivity.
Qed.

Lemma Fval_m180 : Fval (-180) = - (180 * scale).
Proof.
  unfold Fval. rewrite Prim2SF_m180. cbn [SFval cond_Zopp].
  change (-45 + 1074) with 1029. change 6333186975989760 with (180 * 2 ^ 45).
  rewrite <- Z.mul_assoc, <- pow2_split by lia. reflexivity.
Qed.

Lemma in_0_360_val (a : float) :
  in_0_360 (Prim2SF a) ->
  is_finite a = true /\ 0 <= Fval a <= 360 * scale.
Proof.
  unfold Fval. rewrite is_finite_spec.
  intros [H | (ma & ea & H & Hb & Hv)]; rewrite H; cbn [SFfinite SFval cond_Zopp].
  - split; [reflexivity|]. pose proof scale_pos. lia.
  - destruct (bounded_facts _ _ Hb) as (He & _).
    pose proof (pow2_pos (ea + 1074) ltac:(lia)). split; [reflexivity | nia].
Qed.

(** [a - 360] for [a] in (180, 360]: the subtraction is exact, and gives
    [+0] or a negative number. *)
Lemma SFsub_360_cases (ma : positive) (ea : Z) :
  bounded prec emax ma ea = true ->
  180 * scale < Zpos ma * 2 ^ (ea + 1074) <= 360 * scale ->
  let b := SFsub prec emax (S754_finite false ma ea)
                            (S754_finite false 6333186975989760 (-44)) in
  (b = S754_zero false /\ Zpos ma * 2 ^ (ea + 1074) = 360 * scale) \/
  exists mb eb, b = S754_finite true mb eb /\ bounded prec emax mb eb = true /\
    Zpos mb * 2 ^ (eb + 1074) = 360 * scale - Zpos ma * 2 ^ (ea + 1074).
Proof.
  intros Hb [Hlo Hhi]. pose proof scale_pos as HU.
  assert (Hea1 : -46 < ea).
  { apply (exponent_lower ma ea (-46) Hb); [lia|].
    change (2 ^ (-46 + 53)) with 128. lia. }
  assert (Hea2 : ea <= -44).
  { apply (exponent_upper ma ea (-44) Hb); [lia|].
    change (2 ^ (-44 + 53)) with 512. lia. }
  cbn [SFsub]. replace (Z.min ea (-44)) with ea by lia.
  destruct (shl_align_spec ma ea ea) as [_ H1].
  destruct (shl_align_spec 6333186975989760 (-44) ea) as [_ H2].
  rewrite Z.min_id, Z.sub_diag in H1. change (2 ^ 0) with 1 in H1.
  replace (Z.min (-44) ea) with ea in H2 by lia.
  set (m1 := fst (shl_align ma ea ea)) in *.
  set (m2 := fst (shl_align 6333186975989760 (-44) ea)) in *.
  cbn [cond_Zopp].
  pose proof (scale_360 ea ltac:(lia)) as Hsc. rewrite <- H2 in Hsc.
  pose proof (pow2_pos (ea + 1074) ltac:(lia)) as Hu.
  assert (Hle : Zpos m1 <= Zpos m2) by nia.
  destruct (Zpos m1 - Zpos m2) as [| p | p] eqn:Ep; try lia.
  - left. cbn [binary_normalize]. split; [reflexivity | nia].
  - right. cbn [binary_normalize].
    assert (Hpv : Zpos p * 2 ^ (ea + 1074) = 360 * scale - Zpos ma * 2 ^ (ea + 1074)) by nia.
    assert (Hp : Zpos p < 2 ^ 53).
    { assert (Hs : scale = 2 ^ (- ea) * 2 ^ (ea + 1074)).
      { rewrite (scale_split (ea + 1074)) by lia. f_equal. f_equal. lia. }
      assert (Hpe : 2 ^ (- ea) <= 2 ^ 45) by (apply Z.pow_le_mono_r; lia).
      assert (Hp1 : Zpos p * 2 ^ (ea + 1074) < 180 * 2 ^ (- ea) * 2 ^ (ea + 1074)).
      { rewrite <- Z.mul_assoc, <- Hs. lia. }
      apply Z.mul_lt_mono_pos_r in Hp1; [|exact Hu].
      change (2 ^ 45) with 35184372088832 in Hpe.
      change (2 ^ 53) with 9007199254740992. lia. }
    pose proof (digits2_pos_le p 53 ltac:(lia) Hp) as Hd.
    destruct (binary_round_exact true p ea ltac:(lia) Hd ltac:(lia)) as (mz & ez & Hr & Hbz & Hval).
    exists mz, ez. split; [exact Hr|]. split; [exact Hbz | lia].
Qed.

Lemma SFsub_360_spec (ma : positive) (ea : Z) :
  bounded prec emax ma ea = true ->
  180 * scale < Zpos ma * 2 ^ (ea + 1074) <= 360 * scale ->
  let b := SFsub prec emax (S754_finite false ma ea)
                            (S754_finite false 6333186975989760 (-44)) in
  valid_binary b = true /\ SFfinite b = true /\
  SFval b = Zpos ma * 2 ^ (ea + 1074) - 360 * scale.
Proof.
  intros Hb Hv b.
  destruct (SFsub_360_cases ma ea Hb Hv) as [[Hz Hva] | (mb & eb & Hf & Hbb & Hvb)];
    fold b in Hz || fold b in Hf.
  - rewrite Hz. cbn [valid_binary SFfinite SFval]. repeat split. lia.
  - rewrite Hf. cbn [valid_binary SFfinite SFval cond_Zopp].
    split; [exact Hbb|]. split; [reflexivity | lia].
Qed.

(** C5. On a finite angle, [toAngle180] is [toAngle360] minus 360 where
    [toAngle360] exceeds 180 and [toAngle360] otherwise; the subtraction
    is exact (no rounding: [Fval] is the value as an integer multiple of
    [2 ^ -1074]); and the result is in (-180, 180]. *)
Theorem toAngle180_range (angle : float) :
  is_finite angle = true ->
  toAngle180 angle =
    (if 180 <? toAngle360 angle then toAngle360 angle - 360 else toAngle360 angle)%float /\
  Fval (toAngle180 angle) =
    (if (180 <? toAngle360 angle)%float then Fval (toAngle360 angle) - 360 * scale
     else Fval (toAngle360 angle)) /\
  ((-180 <? toAngle180 angle) && (toAngle180 angle <=? 180))%float = true.
Proof.
  intros Hf. split; [reflexivity|].
  destruct (toAngle360_finite angle Hf) as [_ Ha].
  change (toAngle180 angle)
    with (if 180 <? toAngle360 angle then toAngle360 angle - 360 else toAngle360 angle)%float.
  set (a := toAngle360 angle) in *.
  destruct (in_0_360_val a Ha) as [Hfa [Ha0 Ha360]].
  assert (Hf180 : is_finite 180 = true) by reflexivity.
  assert (Hfm180 : is_finite (-180) = true) by reflexivity.
  pose proof scale_pos as HU.
  rewrite (ltb_val 180 a Hf180 Hfa), Fval_180.
  destruct (Z.ltb_spec (180 * scale) (Fval a)) as [Hgt | Hle].
  - destruct Ha as [Hz | (ma & ea & Hp & Hb & Hv)].
    + unfold Fval in Hgt. rewrite Hz in Hgt. cbn [SFval] in Hgt. lia.
    + assert (Eva : Fval a = Zpos ma * 2 ^ (ea + 1074))
        by (unfold Fval; rewrite Hp; reflexivity).
      rewrite Eva in Hgt.
      destruct (SFsub_360_spec ma ea Hb (conj Hgt Hv)) as (Hvb & Hfb & Evb).
      assert (Epb : Prim2SF (a - 360)%float
                    = SFsub prec emax (S754_finite false ma ea)
                        (S754_finite false 6333186975989760 (-44))).
      { rewrite sub_spec, Hp, Prim2SF_360. reflexivity. }
      rewrite <- Epb in Hfb, Evb. rewrite <- is_finite_spec in Hfb.
      fold (Fval (a - 360)%float) in Evb.
      split; [rewrite Eva; exact Evb|].
      rewrite (ltb_val _ _ Hfm180 Hfb), (leb_val _ _ Hfb Hf180), Fval_m180, Fval_180.
      apply andb_true_iff. split; [apply Z.ltb_lt | apply Z.leb_le]; lia.
  - split; [reflexivity|].
    rewrite (ltb_val _ _ Hfm180 Hfa), (leb_val _ _ Hfa Hf180), Fval_m180, Fval_180.
    apply andb_true_iff. split; [apply Z.ltb_lt | apply Z.leb_le]; lia.
Qed.

Lemma toAngle180_range_witness :
  is_finite (-181)%float = true /\
  ((-180 <? toAngle180 (-181)) && (toAngle180 (-181) <=? 180))%float = true.
Proof.
  split; [reflexivity|].
  apply (toAngle180_range (-181)%float). reflexivity.
Defined.

(** ** Signs of rounded results *)

Lemma shr_m_of_loc (m : Z) (l : location) : shr_m (shr_record_of_loc m l) = m.
Proof. destruct l as [|[]]; reflexivity. Qed.

Lemma shr_nonneg (mrs : shr_record) (e n : Z) :
  0 <= shr_m mrs -> 0 <= shr_m (fst (shr mrs e n)).
Proof.
  intros Hm. destruct n as [|p|p]; cbn [shr fst]; try exact Hm.
  destruct (iter_shr_1_spec p mrs Hm) as [E _]. rewrite E.
  apply Z.div_pos; [exact Hm | apply pow2_pos; lia].
Qed.

Lemma binary_round_aux_sign (s : bool) (m e : Z) (l : location) :
  0 <= m -> SFsign_is s (binary_round_aux prec emax s m e l).
Proof.
  intros Hm. unfold binary_round_aux, shr_fexp.
  pose proof (shr_nonneg (shr_record_of_loc m l) e
                (fexp prec emax (Zdigits2 m + e) - e)) as H1.
  rewrite shr_m_of_loc in H1. specialize (H1 Hm).
  destruct (shr (shr_record_of_loc m l) e (fexp prec emax (Zdigits2 m + e) - e))
    as [mrs' e']. cbn [fst] in H1.
  pose proof (round_nearest_even_bounds mrs') as [[Hlo _] _].
  set (m2 := round_nearest_even (shr_m mrs') (loc_of_shr_record mrs')) in *.
  pose proof (shr_nonneg (shr_record_of_loc m2 loc_Exact) e'
                (fexp prec emax (Zdigits2 m2 + e') - e')) as H2.
  rewrite shr_m_of_loc in H2. specialize (H2 ltac:(lia)).
  destruct (shr (shr_record_of_loc m2 loc_Exact) e' (fexp prec emax (Zdigits2 m2 + e') - e'))
    as [mrs'' e'']. cbn [fst] in H2.
  destruct (shr_m mrs'') as [|p|p]; [reflexivity | | lia].
  destruct (e'' <=? emax - prec); reflexivity.
Qed.

Lemma SFadd_nonneg (a b : spec_float) :
  SFsign_is false a -> SFsign_is false b -> SFsign_is false (SFadd prec emax a b).
Proof.
  destruct a as [sa | sa | | sa ma ea]; cbn [SFsign_is]; intros Ha; try contradiction;
  destruct b as [sb | sb | | sb mb eb]; cbn [SFsign_is]; intros Hb; try contradiction;
  subst sa sb; cbn [SFadd SFsign_is cond_Zopp]; try reflexivity.
  set (z := Zpos (fst (shl_align ma ea (Z.min ea eb))) + Zpos (fst (shl_align mb eb (Z.min ea eb)))).
  assert (Hz : 0 < z) by (unfold z; lia).
  destruct z as [|p|p]; try lia.
  cbn [binary_normalize]. unfold binary_round.
  destruct (shl_align p (Z.min ea eb) (fexp prec emax (Zpos (digits2_pos p) + Z.min ea eb)))
    as [mz ez].
  apply binary_round_aux_sign. lia.
Qed.

Lemma SFsqrt_nonneg (a : spec_float) :
  SFsign_is false a -> SFsign_is false (SFsqrt prec emax a).
Proof.
  destruct a as [sa | sa | | sa ma ea]; cbn [SFsign_is]; intros Ha; try contradiction;
  subst sa; cbn [SFsqrt SFsign_is]; try reflexivity.
  unfold SFsqrt_core_binary.
  set (m' := match ea - 2 * Z.min (fexp prec emax (Z.div2 (Zdigits2 (Zpos ma) + ea + 1))) (Z.div2 ea)
             with
             | 0 => Zpos ma
             | Zpos _ => Z.shiftl (Zpos ma) (ea - 2 * Z.min (fexp prec emax (Z.div2 (Zdigits2 (Zpos ma) + ea + 1))) (Z.div2 ea))
             | Zneg _ => 0
             end).
  assert (Hm' : 0 <= m').
  { unfold m'. destruct (ea - 2 * Z.min (fexp prec emax (Z.div2 (Zdigits2 (Zpos ma) + ea + 1))) (Z.div2 ea));
      try lia. apply Z.shiftl_nonneg. lia. }
  pose proof (Z.sqrtrem_spec m' Hm') as Hs.
  destruct (Z.sqrtrem m') as [q r].
  apply binary_round_aux_sign. lia.
Qed.

Lemma SFmul_square_nonneg (a : spec_float) :
  SFfinite a = true -> SFsign_is false (SFmul prec emax a a).
Proof.
  destruct a as [sa | sa | | sa ma ea]; try discriminate; intros _;
    cbn [SFmul SFsign_is].
  - destruct sa; reflexivity.
  - replace (xorb sa sa) with false by (destruct sa; reflexivity).
    apply binary_round_aux_sign. lia.
Qed.

Lemma Prim2SF_one : Prim2SF one = S754_finite false 4503599627370496 (-52).
Proof. vm_compute. reflexivity. Qed.

Lemma get_sign_spec (x : float) :
  get_sign x = match Prim2SF x with
               | S754_zero s | S754_infinity s | S754_finite s _ _ => s
               | S754_nan => false
               end.
Proof.
  unfold get_sign, is_zero. rewrite (eqb_spec x).
  change (Prim2SF zero) with (S754_zero false).
  destruct (Prim2SF x) as [s | s | | s m e] eqn:E; cbn [SFeqb SFcompare].
  - rewrite ltb_spec, div_spec, E, Prim2SF_one.
    change (Prim2SF zero) with (S754_zero false). destruct s; reflexivity.
  - destruct s; rewrite ltb_spec, E; reflexivity.
  - rewrite ltb_spec, E. reflexivity.
  - destruct s; rewrite ltb_spec, E; reflexivity.
Qed.

Lemma nonneg_spec (x : float) : nonneg x <-> SFsign_is false (Prim2SF x).
Proof.
  unfold nonneg. rewrite is_nan_spec, get_sign_spec.
  destruct (Prim2SF x) as [s | s | | s m e]; cbn [SFsign_is];
    intuition (try discriminate; auto).
Qed.

Lemma nonneg_add (a b : float) : nonneg a -> nonneg b -> nonneg (a + b)%float.
Proof.
  rewrite !nonneg_spec, add_spec. apply SFadd_nonneg.
Qed.

Lemma nonneg_sqrt (a : float) : nonneg a -> nonneg (sqrt a).
Proof.
  rewrite !nonneg_spec, sqrt_spec. apply SFsqrt_nonneg.
Qed.

Lemma nonneg_square (a : float) : is_finite a = true -> nonneg (a * a)%float.
Proof.
  rewrite is_finite_spec, nonneg_spec, mul_spec. apply SFmul_square_nonneg.
Qed.

(** ** Integers as floats *)

Local Open Scope Z_scope.

Lemma wrap64_small (z : Z) : - 2 ^ 63 <= z < 2 ^ 63 -> wrap64 z = z.
Proof.
  intros Hz. unfold wrap64. rewrite Z.mod_small; lia.
Qed.

Lemma wrap64_abs (z : Z) :
  - 2 ^ 63 <= z < 2 ^ 63 ->
  (z = - 2 ^ 63 /\ wrap64 (Z.abs z) = - 2 ^ 63) \/
  (z <> - 2 ^ 63 /\ wrap64 (Z.abs z) = Z.abs z).
Proof.
  intros Hz. destruct (Z.eq_dec z (- 2 ^ 63)) as [-> | Hne].
  - left. split; reflexivity.
  - right. split; [exact Hne|]. apply wrap64_small. lia.
Qed.

Lemma binary_round_int (s : bool) (p : positive) :
  Zpos p <= 2 ^ 63 ->
  exists m e,
    binary_round prec emax s p 0 = S754_finite s m e /\
    bounded prec emax m e = true /\
    scale <= Zpos m * 2 ^ (e + 1074).
Proof.
  intros Hp.
  assert (Hd : Zpos (digits2_pos p) <= 64) by (apply digits2_pos_le; lia).
  destruct (binary_round_spec s p 0 ltac:(lia) ltac:(lia)) as (m & e & Hr & Hb & Hrt).
  exists m, e. split; [exact Hr|]. split; [exact Hb|].
  destruct (digits2_pos_bounds p) as [Dlo _].
  set (d := Zpos (digits2_pos p)) in *.
  set (k := Z.max (d - 53) 0) in *.
  assert (Hd1 : 1 <= d) by (unfold d; lia).
  assert (Hk : 0 <= k <= d - 1) by (unfold k; lia).
  assert (Hpk : 2 ^ k <= Zpos p).
  { apply Z.le_trans with (2 ^ (d - 1)); [apply Z.pow_le_mono_r; lia | exact Dlo]. }
  assert (H2k : 0 < 2 ^ k) by (apply pow2_pos; lia).
  pose proof scale_pos as HU.
  replace (0 + k + 1074) with (k + 1074) in Hrt by lia.
  replace (0 + 1074) with 1074 in Hrt by lia.
  rewrite (pow2_split k 1074) in Hrt by lia. fold scale in Hrt.
  destruct Hrt as (Hu & _ & [Hlo _] & _).
  assert (Hq : 1 <= Zpos p * scale / (2 ^ k * scale)).
  { apply Z.div_le_lower_bound; [exact Hu | nia]. }
  revert Hlo Hq Hu H2k HU.
  generalize (Zpos p * scale / (2 ^ k * scale)) (Zpos m * 2 ^ (e + 1074)) (2 ^ k).
  intros q V' u Hlo Hq Hu H2k HU. nia.
Qed.

Lemma float_of_int_0 : float_of_int 0 = 0%float.
Proof. reflexivity. Qed.

Lemma float_of_int_2 : float_of_int 2 = 2%float.
Proof. reflexivity. Qed.

(** The float of an integer of at most 64 bits: finite, with the sign of
    the integer, and at least 1 in absolute value. *)
Lemma float_of_int_spec (z : Z) :
  z <> 0 -> Z.abs z <= 2 ^ 63 ->
  exists m e,
    Prim2SF (float_of_int z) = S754_finite (z <? 0) m e /\
    bounded prec emax m e = true /\
    scale <= Zpos m * 2 ^ (e + 1074).
Proof.
  intros Hz Hb. unfold float_of_int.
  destruct z as [|p|p]; [contradiction| |]; cbn [binary_normalize Z.ltb Z.compare];
    [destruct (binary_round_int false p) as (m & e & Hr & Hbd & Hv)
    |destruct (binary_round_int true p) as (m & e & Hr & Hbd & Hv)];
    try (cbn [Z.abs] in Hb; lia);
    exists m, e; rewrite Hr; (split; [apply Prim2SF_SF2Prim; exact Hbd|]);
    split; assumption.
Qed.

Lemma float_of_int_finite (z : Z) :
  Z.abs z <= 2 ^ 63 -> is_finite (float_of_int z) = true.
Proof.
  intros Hb. rewrite is_finite_spec.
  destruct (Z.eq_dec z 0) as [-> | Hz]; [reflexivity|].
  destruct (float_of_int_spec z Hz Hb) as (m & e & -> & _). reflexivity.
Qed.

Lemma float_of_int_nonneg (z : Z) :
  0 <= z <= 2 ^ 63 -> nonneg (float_of_int z).
Proof.
  intros Hb. apply nonneg_spec.
  destruct (Z.eq_dec z 0) as [-> | Hz]; [reflexivity|].
  destruct (float_of_int_spec z Hz ltac:(lia)) as (m & e & -> & _).
  cbn [SFsign_is]. apply Z.ltb_ge. lia.
Qed.

Lemma Fval_f_eps_lt_scale : 0 < Fval f_eps < scale.
Proof. split; vm_compute; reflexivity. Qed.

(** An integer is below the tolerance exactly when it is not positive. *)
Lemma float_of_int_below (z : Z) :
  Z.abs z <= 2 ^ 63 ->
  (float_of_int z <? f_eps)%float = (z <=? 0).
Proof.
  intros Hb. pose proof Fval_f_eps_lt_scale as He.
  rewrite (ltb_val _ f_eps (float_of_int_finite z Hb) eq_refl).
  destruct (Z.eq_dec z 0) as [-> | Hz].
  { rewrite float_of_int_0. apply Z.ltb_lt. apply He. }
  destruct (float_of_int_spec z Hz Hb) as (m & e & Hp & _ & Hv).
  unfold Fval at 1. rewrite Hp. cbn [SFval].
  revert Hv He. generalize (Zpos m * 2 ^ (e + 1074)) (Fval f_eps) scale.
  intros V E U Hv He.
  destruct (Z.ltb_spec z 0) as [Hneg | Hpos]; cbn [cond_Zopp].
  - replace (z <=? 0) with true by (symmetry; apply Z.leb_le; lia).
    apply Z.ltb_lt. lia.
  - replace (z <=? 0) with false by (symmetry; apply Z.leb_gt; lia).
    apply Z.ltb_ge. lia.
Qed.

Local Open Scope float_scope.

Lemma SFadd_comm (x y : spec_float) : SFadd prec emax x y = SFadd prec emax y x.
Proof.
  destruct x as [sx | sx | | sx mx ex], y as [sy | sy | | sy my ey];
    cbn [SFadd]; try reflexivity;
    try (destruct sx, sy; reflexivity).
  rewrite (Z.min_comm ey ex), Z.add_comm. reflexivity.
Qed.

Lemma add_comm (a b : float) : a + b = b + a.
Proof.
  apply Prim2SF_inj. rewrite !add_spec. apply SFadd_comm.
Qed.

(** ** The angle extractors *)

Local Open Scope float_scope.

Lemma is_nan_eq (r : float) : is_nan r = true <-> r = nan.
Proof.
  split.
  - rewrite is_nan_spec. intros H. apply Prim2SF_inj.
    change (Prim2SF nan) with S754_nan.
    destruct (Prim2SF r); (reflexivity || discriminate).
  - intros ->. reflexivity.
Qed.

Lemma getitem_3 {A} (p : list A) :
  (3 <= length p)%nat ->
  exists x y z, getitem p 0 = Some x /\ getitem p 1 = Some y /\ getitem p 2 = Some z.
Proof.
  destruct p as [|x [|y [|z t]]]; cbn [length]; try lia.
  intros _. exists x, y, z. repeat split.
Qed.

(** The reference backend satisfies what the theorems assume. *)

Lemma axis_defined : arctan2_degrees_defined Axis.
Proof.
  intros a b Ha Hb. cbn [degrees arctan2 Axis]. unfold axis_arctan2.
  rewrite (is_finite_not_nan a Ha), (is_finite_not_nan b Hb). cbn [orb].
  destruct (get_sign b), (get_sign a); vm_compute; reflexivity.
Qed.

Lemma axis_upper : arctan2_degrees_upper Axis.
Proof.
  intros r x [Hr Hs] Hx. cbn [degrees arctan2 Axis]. unfold axis_arctan2.
  rewrite Hr, Hs, (is_finite_not_nan x Hx). cbn [orb].
  destruct (get_sign x); vm_compute; reflexivity.
Qed.

Lemma axis_origin : arctan2_degrees_origin Axis.
Proof. vm_compute. reflexivity. Qed.

Lemma axis_power_nonneg : power_square_nonneg Axis.
Proof. intros z Hz. cbn [power Axis]. apply nonneg_square. exact Hz. Qed.

Lemma axis_power_zero : power_square_zero Axis.
Proof. vm_compute. reflexivity. Qed.

Lemma axis_origin_neg : arctan2_degrees_origin_neg Axis.
Proof. vm_compute. reflexivity. Qed.

Lemma axis_power_neg_zero : power_square_neg_zero Axis.
Proof. vm_compute. reflexivity. Qed.

(** *** The tolerance test *)

Local Open Scope Z_scope.

Lemma Fval_abs (f : float) : Fval (abs f) = Z.abs (Fval f).
Proof.
  unfold Fval. rewrite abs_spec.
  destruct (Prim2SF f) as [s | s | | s m e]; cbn [SFabs SFval]; try reflexivity.
  assert (H : 0 <= Zpos m * 2 ^ (e + 1074)).
  { apply Z.mul_nonneg_nonneg; [lia | apply Z.pow_nonneg; lia]. }
  destruct s; cbn [cond_Zopp]; lia.
Qed.

Lemma abs_finite (f : float) : is_finite f = true -> is_finite (abs f) = true.
Proof.
  rewrite !is_finite_spec, abs_spec.
  destruct (Prim2SF f); intros H; (exact H || discriminate).
Qed.

Lemma float64_finite (n : number) : finite n -> is_finite (float64 n) = true.
Proof.
  destruct n as [z | f]; cbn [finite float64]; [|auto].
  unfold int64. intros Hz. apply float_of_int_finite. lia.
Qed.

Lemma below_eps_int (z : Z) : below_eps (Int z) <-> z = 0.
Proof.
  unfold below_eps, value. pose proof Fval_f_eps_lt_scale as He.
  rewrite Z.abs_mul. revert He. generalize (Fval f_eps) scale. intros E U He.
  split; [intros H | intros ->; cbn; lia].
  rewrite (Z.abs_eq U) in H by lia.
  destruct (Z.eq_dec z 0) as [|Hz]; [assumption | exfalso; nia].
Qed.

Lemma guard_float (f : float) :
  is_finite f = true ->
  np_less (np_abs (Float f)) f_eps = true <-> below_eps (Float f).
Proof.
  intros Hf. unfold np_less, np_abs, float64, below_eps, value.
  rewrite (ltb_val _ f_eps (abs_finite f Hf) eq_refl), Fval_abs. apply Z.ltb_lt.
Qed.

Lemma guard_int (z : Z) :
  int64 z -> z <> - 2 ^ 63 ->
  np_less (np_abs (Int z)) f_eps = true <-> below_eps (Int z).
Proof.
  intros Hz Hne. rewrite below_eps_int. unfold np_less, np_abs, float64.
  destruct (wrap64_abs z Hz) as [[E _] | [_ E]]; [contradiction|]. rewrite E.
  unfold int64 in Hz. rewrite float_of_int_below by lia.
  rewrite Z.leb_le. lia.
Qed.

Lemma guard_int64_min : np_less (np_abs int64_min) f_eps = true.
Proof. vm_compute. reflexivity. Qed.

Lemma not_below_int64_min : ~ below_eps int64_min.
Proof. unfold int64_min. rewrite below_eps_int. discriminate. Qed.

(** The test [np.abs(c) < f_eps] on a finite coordinate. *)
Lemma guard_spec (n : number) :
  finite n -> np_less (np_abs n) f_eps = true <-> taken_for_zero n.
Proof.
  intros Hf. unfold taken_for_zero.
  destruct n as [z | f].
  - destruct (Z.eq_dec z (- 2 ^ 63)) as [-> | Hne].
    + split; [right; reflexivity | intros _; exact guard_int64_min].
    + rewrite (guard_int z Hf Hne). split; [auto|].
      intros [H | H]; [exact H | exfalso; apply Hne; injection H; auto].
  - rewrite (guard_float f Hf). split; [auto|]. intros [H | H]; [exact H | discriminate].
Qed.

Lemma guard_both (a b : number) :
  finite a -> finite b ->
  np_less (np_abs a) f_eps && np_less (np_abs b) f_eps = true
  <-> taken_for_zero a /\ taken_for_zero b.
Proof.
  intros Ha Hb. rewrite andb_true_iff, (guard_spec a Ha), (guard_spec b Hb). tauto.
Qed.

Local Open Scope float_scope.

Section Extractors.

Context {npa : NumpyAngles}.

(** *** The radius *)

Lemma np_add_comm (a b : number) : np_add a b = np_add b a.
Proof.
  destruct a as [x | f], b as [y | g]; cbn [np_add float64];
    [rewrite Z.add_comm | rewrite add_comm ..]; reflexivity.
Qed.

(** Without overflow, the radius the extractors compute is the Euclidean
    norm. *)
Lemma radius_exact (a b : number) :
  no_overflow a b ->
  np_sqrt (np_add (np_power a 2) (np_power b 2)) = euclidean_norm a b.
Proof.
  unfold euclidean_norm, np_sqrt.
  destruct a as [x | f], b as [y | g];
    cbn [no_overflow np_power np_add exact_square exact_add float64]; intros H;
    rewrite ?float_of_int_2, ?Z.pow_2_r; try reflexivity.
  - assert (0 <= x * x /\ 0 <= y * y)%Z by nia.
    rewrite (wrap64_small (x * x)), (wrap64_small (y * y)) by lia.
    rewrite wrap64_small by lia. reflexivity.
  - assert (0 <= x * x)%Z by nia. rewrite wrap64_small by lia. reflexivity.
  - assert (0 <= y * y)%Z by nia. rewrite wrap64_small by lia. reflexivity.
Qed.

Lemma euclidean_norm_nonneg (a b : number) :
  power_square_nonneg npa -> finite a -> finite b -> no_overflow a b ->
  nonneg (euclidean_norm a b).
Proof.
  intros Hpow. unfold euclidean_norm.
  destruct a as [x | f], b as [y | g];
    cbn [finite no_overflow exact_square exact_add float64]; intros Ha Hb H;
    apply nonneg_sqrt.
  - apply float_of_int_nonneg. nia.
  - apply nonneg_add; [apply float_of_int_nonneg; nia | apply Hpow; exact Hb].
  - apply nonneg_add; [apply Hpow; exact Ha | apply float_of_int_nonneg; nia].
  - apply nonneg_add; apply Hpow; assumption.
Qed.

Lemma radius_zero (a b : number) :
  power_square_zero npa -> power_square_neg_zero npa ->
  zero_coordinate a -> zero_coordinate b ->
  np_sqrt (np_add (np_power a 2) (np_power b 2)) = 0.
Proof.
  unfold power_square_zero, power_square_neg_zero. intros Hp0 Hn0.
  intros [-> | [-> | ->]] [-> | [-> | ->]];
    unfold np_sqrt; cbn [np_power np_add float64];
    rewrite ?float_of_int_2, ?Hp0, ?Hn0; reflexivity.
Qed.

Lemma angle_zero (c : number) :
  arctan2_degrees_origin npa -> arctan2_degrees_origin_neg npa ->
  zero_coordinate c -> degrees (np_arctan2 (Float 0) c) = origin_angle c.
Proof.
  unfold arctan2_degrees_origin, arctan2_degrees_origin_neg. intros Ho Hn.
  intros [-> | [-> | ->]]; unfold np_arctan2; cbn [float64 origin_angle].
  - rewrite float_of_int_0. exact Ho.
  - exact Ho.
  - exact Hn.
Qed.

(** *** The in-plane extractors *)

(** C1. At the least [int64] the in-plane extractors return [nan], not the
    angle: [np.abs] wraps around, and the tolerance test takes the
    coordinate for zero. *)
Theorem in_plane_least_integer :
  arctan2_degrees_defined npa ->
  let m := int64_min in
  (fAngleYZ [Int 0; m; m; Int 1] = Some nan /\
   fAngleYZ [Int 0; m; m; Int 1] <> Some (degrees (arctan2 (float64 m) (float64 m)))) /\
  (fAngleZX [m; Int 0; m; Int 1] = Some nan /\
   fAngleZX [m; Int 0; m; Int 1] <> Some (degrees (arctan2 (float64 m) (float64 m)))) /\
  (fAngleXY [m; m; Int 0; Int 1] = Some nan /\
   fAngleXY [m; m; Int 0; Int 1] <> Some (degrees (arctan2 (float64 m) (float64 m)))).
Proof.
  intros Hdef m.
  set (d := degrees (arctan2 (float64 m) (float64 m))).
  assert (Hm : is_nan d = false) by (apply Hdef; reflexivity).
  assert (Hne : Some nan <> Some d).
  { intros E. injection E as E'. rewrite <- E' in Hm. discriminate Hm. }
  assert (Hg : np_less (np_abs m) f_eps = true) by exact guard_int64_min.
  unfold fAngleYZ, fAngleZX, fAngleXY. cbn [getitem nth_error].
  rewrite Hg. cbn [andb]. repeat split; exact Hne.
Qed.

(** C2. At the least [int64] an in-plane extractor returns [nan] on
    coordinates that are not below the tolerance. *)
Theorem in_plane_nan_least_integer :
  let m := int64_min in
  ~ below_eps m /\
  fAngleYZ [Int 0; m; m; Int 1] = Some nan /\
  fAngleZX [m; Int 0; m; Int 1] = Some nan /\
  fAngleXY [m; m; Int 0; Int 1] = Some nan.
Proof.
  intros m. split; [exact not_below_int64_min|].
  assert (Hg : np_less (np_abs m) f_eps = true) by exact guard_int64_min.
  unfold fAngleYZ, fAngleZX, fAngleXY. cbn [getitem nth_error].
  rewrite Hg. repeat split.
Qed.

(** X20. Where the two coordinates of the rotation plane are finite and
    not both taken for zero, each in-plane extractor returns
    [degrees (arctan2 second first)]: [arctan2 z y] for YZ, [arctan2 x z]
    for ZX, [arctan2 y x] for XY, integers converted to floats.  Each
    conjunct constrains only the two coordinates its extractor reads. *)
Theorem in_plane_angle (p : point) :
  (forall y z, getitem p 1 = Some y -> getitem p 2 = Some z ->
     finite y -> finite z -> ~ (taken_for_zero y /\ taken_for_zero z) ->
     fAngleYZ p = Some (degrees (arctan2 (float64 z) (float64 y)))) /\
  (forall x z, getitem p 0 = Some x -> getitem p 2 = Some z ->
     finite x -> finite z -> ~ (taken_for_zero x /\ taken_for_zero z) ->
     fAngleZX p = Some (degrees (arctan2 (float64 x) (float64 z)))) /\
  (forall x y, getitem p 0 = Some x -> getitem p 1 = Some y ->
     finite x -> finite y -> ~ (taken_for_zero x /\ taken_for_zero y) ->
     fAngleXY p = Some (degrees (arctan2 (float64 y) (float64 x)))).
Proof.
  unfold fAngleYZ, fAngleZX, fAngleXY.
  repeat split; intros a b Ha Hb Fa Fb Hc; rewrite Ha, Hb;
    destruct (np_less (np_abs a) f_eps && np_less (np_abs b) f_eps) eqn:E;
    try reflexivity; exfalso; apply Hc; apply guard_both; assumption.
Qed.

(** X21. On finite coordinates, an in-plane extractor returns [nan]
    exactly when both coordinates of its plane are taken for zero: each is below
    [f_eps] in absolute value, or is the least [int64]; at the origin all
    three return [nan]. *)
Theorem in_plane_nan_iff (p : point) (x y z : number) :
  arctan2_degrees_defined npa ->
  getitem p 0 = Some x -> getitem p 1 = Some y -> getitem p 2 = Some z ->
  finite x -> finite y -> finite z ->
  (exists r, fAngleYZ p = Some r /\
     (r = nan <-> taken_for_zero y /\ taken_for_zero z)) /\
  (exists r, fAngleZX p = Some r /\
     (r = nan <-> taken_for_zero x /\ taken_for_zero z)) /\
  (exists r, fAngleXY p = Some r /\
     (r = nan <-> taken_for_zero x /\ taken_for_zero y)) /\
  fAngleYZ [Int 0; Int 0; Int 0; Int 1] = Some nan /\
  fAngleZX [Int 0; Int 0; Int 0; Int 1] = Some nan /\
  fAngleXY [Int 0; Int 0; Int 0; Int 1] = Some nan /\
  fAngleYZ [Float 0; Float 0; Float 0; Float 1] = Some nan /\
  fAngleZX [Float 0; Float 0; Float 0; Float 1] = Some nan /\
  fAngleXY [Float 0; Float 0; Float 0; Float 1] = Some nan.
Proof.
  intros Hdef Hx Hy Hz Fx Fy Fz.
  assert (Hcase : forall a b s t, finite a -> finite b -> finite s -> finite t ->
    exists r,
      (if np_less (np_abs a) f_eps && np_less (np_abs b) f_eps then Some nan
       else Some (degrees (np_arctan2 s t))) = Some r /\
      (r = nan <-> taken_for_zero a /\ taken_for_zero b)).
  { intros a b s t Fa Fb Fs Ft. pose proof (guard_both a b Fa Fb) as G.
    destruct (np_less (np_abs a) f_eps && np_less (np_abs b) f_eps).
    - exists nan. split; [reflexivity|]. split; [intros _; apply G|]; reflexivity.
    - exists (degrees (np_arctan2 s t)). split; [reflexivity|].
      split; [|intros H; apply G in H; discriminate].
      intros E. apply is_nan_eq in E. unfold np_arctan2 in E.
      rewrite (Hdef _ _ (float64_finite s Fs) (float64_finite t Ft)) in E. discriminate. }
  unfold fAngleYZ, fAngleZX, fAngleXY. rewrite Hx, Hy, Hz.
  repeat split; try (apply Hcase; assumption).
Qed.

(** *** The axis-to-radius extractors *)

(** C3. On finite coordinates whose squares and their sum do not
    overflow, each axis-to-radius extractor returns
    [degrees (arctan2 r axis)] with [r] the Euclidean norm of the two
    other coordinates as [float64] computes it, whatever their size (no
    tolerance check), and the result is in [0, 180]; at the origin it is
    [0] when the zero on the axis is positive or an integer, and [180]
    when it is the negative zero. *)
Theorem axis_to_radius_angle (p : point) (x y z : number) :
  power_square_nonneg npa -> arctan2_degrees_upper npa ->
  power_square_zero npa -> power_square_neg_zero npa ->
  arctan2_degrees_origin npa -> arctan2_degrees_origin_neg npa ->
  getitem p 0 = Some x -> getitem p 1 = Some y -> getitem p 2 = Some z ->
  finite x -> finite y -> finite z ->
  no_overflow z y -> no_overflow z x -> no_overflow x y ->
  let in_0_180 a := (0 <=? a) && (a <=? 180) = true in
  (fAngleXR p = Some (degrees (arctan2 (euclidean_norm z y) (float64 x))) /\
   in_0_180 (degrees (arctan2 (euclidean_norm z y) (float64 x)))) /\
  (fAngleYR p = Some (degrees (arctan2 (euclidean_norm z x) (float64 y))) /\
   in_0_180 (degrees (arctan2 (euclidean_norm z x) (float64 y)))) /\
  (fAngleZR p = Some (degrees (arctan2 (euclidean_norm x y) (float64 z))) /\
   in_0_180 (degrees (arctan2 (euclidean_norm x y) (float64 z)))) /\
  (zero_coordinate x -> zero_coordinate y -> zero_coordinate z ->
   fAngleXR p = Some (origin_angle x) /\
   fAngleYR p = Some (origin_angle y) /\
   fAngleZR p = Some (origin_angle z)).
Proof.
  intros Hpow Hup Hp0 Hn0 Hor Hon Hx Hy Hz Fx Fy Fz Ozy Ozx Oxy in_0_180.
  assert (Hr : forall a b c, finite a -> finite b -> finite c -> no_overflow a b ->
    in_0_180 (degrees (arctan2 (euclidean_norm a b) (float64 c)))).
  { intros a b c Fa Fb Fc Oab. apply Hup; [|apply float64_finite; exact Fc].
    apply euclidean_norm_nonneg; assumption. }
  unfold fAngleXR, fAngleYR, fAngleZR, np_arctan2. rewrite Hx, Hy, Hz.
  cbn [float64].
  split; [split; [rewrite (radius_exact z y Ozy); reflexivity | apply Hr; assumption]|].
  split; [split; [rewrite (radius_exact z x Ozx); reflexivity | apply Hr; assumption]|].
  split; [split; [rewrite (radius_exact x y Oxy); reflexivity | apply Hr; assumption]|].
  intros Zx Zy Zz.
  rewrite (radius_zero z y Hp0 Hn0 Zz Zy), (radius_zero z x Hp0 Hn0 Zz Zx),
    (radius_zero x y Hp0 Hn0 Zx Zy).
  pose proof (angle_zero x Hor Hon Zx) as Ax.
  pose proof (angle_zero y Hor Hon Zy) as Ay.
  pose proof (angle_zero z Hor Hon Zz) as Az.
  unfold np_arctan2 in Ax, Ay, Az. cbn [float64] in Ax, Ay, Az.
  rewrite Ax, Ay, Az. repeat split.
Qed.

(** C9. The six extractors do not read the fourth component: two
    points with the same components 0, 1 and 2 give the same result. *)
Theorem extractors_ignore_w (p q : point) :
  getitem p 0 = getitem q 0 -> getitem p 1 = getitem q 1 ->
  getitem p 2 = getitem q 2 ->
  fAngleYZ p = fAngleYZ q /\ fAngleZX p = fAngleZX q /\
  fAngleXY p = fAngleXY q /\ fAngleXR p = fAngleXR q /\
  fAngleYR p = fAngleYR q /\ fAngleZR p = fAngleZR q.
Proof.
  intros H0 H1 H2.
  unfold fAngleYZ, fAngleZX, fAngleXY, fAngleXR, fAngleYR, fAngleZR.
  rewrite H0, H1, H2. repeat split.
Qed.

End Extractors.

(** Witnesses: the point of the module's self-test, on the reference
    backend. *)

Lemma finite_int_small (z : Z) : (Z.abs z <= 9)%Z -> finite (Int z).
Proof. cbn [finite]. unfold int64. lia. Qed.

Lemma not_taken_for_zero_1 : ~ taken_for_zero (Int 1).
Proof.
  intros [H | H]; [apply below_eps_int in H|]; discriminate.
Qed.

Lemma in_plane_least_integer_witness :
  arctan2_degrees_defined Axis /\
  fAngleYZ (npa := Axis) [Int 0; int64_min; int64_min; Int 1] = Some nan.
Proof.
  split; [exact axis_defined|].
  exact (proj1 (proj1 (in_plane_least_integer (npa := Axis) axis_defined))).
Defined.

Lemma in_plane_angle_witness :
  finite (Int 1) /\ finite (Int 2) /\ ~ taken_for_zero (Int 1) /\
  fAngleYZ (npa := Axis) [Int 2; Int 1; Int 1; Int 1]
  = Some (@degrees Axis (@arctan2 Axis (float64 (Int 1)) (float64 (Int 1)))) /\
  fAngleZX (npa := Axis) [Int 2; Int 1; Int 1; Int 1]
  = Some (@degrees Axis (@arctan2 Axis (float64 (Int 2)) (float64 (Int 1)))) /\
  fAngleXY (npa := Axis) [Int 2; Int 1; Int 1; Int 1]
  = Some (@degrees Axis (@arctan2 Axis (float64 (Int 1)) (float64 (Int 2)))).
Proof.
  assert (F1 : finite (Int 1)) by (apply finite_int_small; cbn; lia).
  assert (F2 : finite (Int 2)) by (apply finite_int_small; cbn; lia).
  assert (N1 : forall n, ~ (taken_for_zero n /\ taken_for_zero (Int 1)))
    by (intros n [_ H]; exact (not_taken_for_zero_1 H)).
  assert (N2 : forall n, ~ (taken_for_zero (Int 1) /\ taken_for_zero n))
    by (intros n [H _]; exact (not_taken_for_zero_1 H)).
  destruct (in_plane_angle (npa := Axis) [Int 2; Int 1; Int 1; Int 1]) as (H1 & H2 & H3).
  split; [exact F1|]. split; [exact F2|]. split; [exact not_taken_for_zero_1|].
  split; [apply (H1 (Int 1) (Int 1) eq_refl eq_refl F1 F1 (N1 _))|].
  split; [apply (H2 (Int 2) (Int 1) eq_refl eq_refl F2 F1 (N1 _))
         |apply (H3 (Int 2) (Int 1) eq_refl eq_refl F2 F1 (N1 _))].
Defined.

Lemma in_plane_nan_iff_witness :
  arctan2_degrees_defined Axis /\ finite (Int 2) /\ finite (Int 1) /\
  (exists r, fAngleYZ (npa := Axis) [Int 2; Int 1; Int 1; Int 1] = Some r /\
     (r = nan <-> taken_for_zero (Int 1) /\ taken_for_zero (Int 1))).
Proof.
  assert (F1 : finite (Int 1)) by (apply finite_int_small; cbn; lia).
  assert (F2 : finite (Int 2)) by (apply finite_int_small; cbn; lia).
  split; [exact axis_defined|]. split; [exact F2|]. split; [exact F1|].
  exact (proj1 (in_plane_nan_iff (npa := Axis) [Int 2; Int 1; Int 1; Int 1]
                  (Int 2) (Int 1) (Int 1) axis_defined eq_refl eq_refl eq_refl F2 F1 F1)).
Defined.

Lemma axis_to_radius_angle_witness :
  power_square_nonneg Axis /\ arctan2_degrees_upper Axis /\
  power_square_zero Axis /\ power_square_neg_zero Axis /\
  arctan2_degrees_origin Axis /\ arctan2_degrees_origin_neg Axis /\
  finite (Int 2) /\ finite (Int 1) /\ no_overflow (Int 1) (Int 1) /\
  no_overflow (Int 1) (Int 2) /\ no_overflow (Int 2) (Int 1) /\
  fAngleXR (npa := Axis) [Int 2; Int 1; Int 1; Int 1]
  = Some (@degrees Axis (@arctan2 Axis (euclidean_norm (npa := Axis) (Int 1) (Int 1))
                           (float64 (Int 2)))).
Proof.
  assert (F1 : finite (Int 1)) by (apply finite_int_small; cbn; lia).
  assert (F2 : finite (Int 2)) by (apply finite_int_small; cbn; lia).
  assert (O11 : no_overflow (Int 1) (Int 1)) by (cbn; lia).
  assert (O12 : no_overflow (Int 1) (Int 2)) by (cbn; lia).
  assert (O21 : no_overflow (Int 2) (Int 1)) by (cbn; lia).
  split; [exact axis_power_nonneg|]. split; [exact axis_upper|].
  split; [exact axis_power_zero|]. split; [exact axis_power_neg_zero|].
  split; [exact axis_origin|]. split; [exact axis_origin_neg|].
  split; [exact F2|]. split; [exact F1|]. split; [exact O11|].
  split; [exact O12|]. split; [exact O21|].
  exact (proj1 (proj1 (axis_to_radius_angle (npa := Axis) [Int 2; Int 1; Int 1; Int 1]
           (Int 2) (Int 1) (Int 1)
           axis_power_nonneg axis_upper axis_power_zero axis_power_neg_zero
           axis_origin axis_origin_neg eq_refl eq_refl eq_refl F2 F1 F1 O11 O12 O21))).
Defined.

(** The origin with the negative zero on the x axis: 180, not 0. *)
Lemma axis_to_radius_origin_negative_zero :
  fAngleXR (npa := Axis) [Float (-0); Float 0; Float 0; Float 1] = Some 180 /\
  (180 =? 0) = false.
Proof. split; vm_compute; reflexivity. Qed.

(** Integer coordinates whose squares overflow: the sum of the squares
    wraps around to a negative integer and the radius is [nan]. *)
Lemma axis_to_radius_overflow :
  fAngleXR (npa := Axis) [Int 1; Int 2200000000; Int 2200000000; Int 1] = Some nan.
Proof. vm_compute. reflexivity. Qed.

(** Float coordinates whose squares underflow: the radius is 0, and so is
    the angle. *)
Lemma axis_to_radius_underflow :
  fAngleXR (npa := Axis) [Float 1e-200; Float 1e-200; Float 1e-200; Float 1] = Some 0.
Proof. vm_compute. reflexivity. Qed.

Lemma extractors_ignore_w_witness :
  fAngleYZ (npa := Axis) [Int 2; Int 1; Int 1; Int 1]
  = fAngleYZ (npa := Axis) [Int 2; Int 1; Int 1; Int 0] /\
  fAngleXR (npa := Axis) [Int 2; Int 1; Int 1; Int 1]
  = fAngleXR (npa := Axis) [Int 2; Int 1; Int 1; Int 0].
Proof.
  destruct (extractors_ignore_w (npa := Axis) [Int 2; Int 1; Int 1; Int 1]
              [Int 2; Int 1; Int 1; Int 0]
              eq_refl eq_refl eq_refl) as (H1 & _ & _ & H4 & _).
  split; [exact H1 | exact H4].
Defined.

(** ** Batch forms *)

Lemma comprehension_elementwise {A B} (f : A -> option B) (l : list A) :
  (forall x, In x l -> f x <> None) ->
  exists out, comprehension f l = Some out /\ elementwise f l out.
Proof.
  induction l as [|a l IH]; intros Hf.
  - exists []. split; [reflexivity|]. split; [reflexivity|].
    intros [|i] x; discriminate.
  - destruct IH as (out & Hc & Hlen & Hnth).
    { intros x Hx. apply Hf. right. exact Hx. }
    destruct (f a) as [b|] eqn:Ea; [|exfalso; apply (Hf a); [left; reflexivity | exact Ea]].
    exists (b :: out). cbn [comprehension]. rewrite Ea, Hc.
    split; [reflexivity|]. split; [cbn [length]; congruence|].
    intros [|i] x; cbn [nth_error].
    + intros [= <-]. exists b. split; [reflexivity | exact Ea].
    + apply Hnth.
Qed.

Lemma map_elementwise {A B} (f : A -> B) (l : list A) :
  elementwise (fun a => Some (f a)) l (map f l).
Proof.
  split; [apply length_map|].
  intros i x Hx. exists (f x). split; [|reflexivity].
  rewrite nth_error_map, Hx. reflexivity.
Qed.

Section Batch.

Context {npa : NumpyAngles}.

Lemma extractors_defined (p : point) :
  (3 <= length p)%nat ->
  fAngleYZ p <> None /\ fAngleZX p <> None /\ fAngleXY p <> None /\
  fAngleXR p <> None /\ fAngleYR p <> None /\ fAngleZR p <> None.
Proof.
  intros Hp. destruct (getitem_3 p Hp) as (x & y & z & Hx & Hy & Hz).
  unfold fAngleYZ, fAngleZX, fAngleXY, fAngleXR, fAngleYR, fAngleZR.
  rewrite Hx, Hy, Hz.
  repeat split; try discriminate;
    match goal with |- context [if ?c then _ else _] => destruct c end; discriminate.
Qed.

(** C8. On points of at least three components, each batch extractor
    returns a sequence of the length of its input whose i-th element is
    the scalar extractor's result on the i-th point; the batch
    normalizers do the same on any sequence of angles; the empty
    sequence gives the empty sequence. *)
Theorem batch_elementwise (angleArr : list point) (angles : list float) :
  (forall p, In p angleArr -> (3 <= length p)%nat) ->
  (exists out, fAngleArrYZ angleArr = Some out /\ elementwise fAngleYZ angleArr out) /\
  (exists out, fAngleArrZX angleArr = Some out /\ elementwise fAngleZX angleArr out) /\
  (exists out, fAngleArrXY angleArr = Some out /\ elementwise fAngleXY angleArr out) /\
  (exists out, fAngleArrXR angleArr = Some out /\ elementwise fAngleXR angleArr out) /\
  (exists out, fAngleArrYR angleArr = Some out /\ elementwise fAngleYR angleArr out) /\
  (exists out, fAngleArrZR angleArr = Some out /\ elementwise fAngleZR angleArr out) /\
  elementwise (fun a => Some (toAngle360 a)) angles (toAngleArr360 angles) /\
  elementwise (fun a => Some (toAngle180 a)) angles (toAngleArr180 angles) /\
  fAngleArrYZ [] = Some [] /\ fAngleArrZX [] = Some [] /\ fAngleArrXY [] = Some [] /\
  fAngleArrXR [] = Some [] /\ fAngleArrYR [] = Some [] /\ fAngleArrZR [] = Some [] /\
  toAngleArr360 [] = [] /\ toAngleArr180 [] = [].
Proof.
  intros Hwf.
  assert (Hd : forall p, In p angleArr ->
    fAngleYZ p <> None /\ fAngleZX p <> None /\ fAngleXY p <> None /\
    fAngleXR p <> None /\ fAngleYR p <> None /\ fAngleZR p <> None).
  { intros p Hp. apply extractors_defined, Hwf, Hp. }
  repeat split; try reflexivity;
    try (apply comprehension_elementwise; intros p Hp; apply (Hd p Hp));
    try apply map_elementwise; try apply length_map.
Qed.

End Batch.

Lemma batch_elementwise_witness :
  let pts := [[Int 2; Int 1; Int 1; Int 1]; [Float 0; Float 0; Float 0; Float 1]] in
  (forall p, In p pts -> (3 <= length p)%nat) /\
  exists out, fAngleArrYZ (npa := Axis) pts = Some out /\
              elementwise (fAngleYZ (npa := Axis)) pts out.
Proof.
  intros pts.
  assert (Hwf : forall p : point, In p pts -> (3 <= length p)%nat).
  { intros p [<- | [<- | []]]; cbn [length]; lia. }
  split; [exact Hwf|].
  exact (proj1 (batch_elementwise (npa := Axis) pts [] Hwf)).
Defined.

(** ** Matrices *)

Section Builders.

Context {npt : NumpyTrig}.

(** C7. With [co] and [si] the cosine and sine of the angle in radians:
    [Rot_yz] has [[co, -si], [si, co]] on rows and columns 1 and 2
    (y, z), [Rot_zx] has [[co, si], [-si, co]] on rows and columns 0 and
    2 (x, z in the order of the matrix), [Rot_xy] has
    [[co, -si], [si, co]] on rows and columns 0 and 1 (x, y); the row and
    the column of the rotation axis are those of the identity; [Trans]
    is the identity with fourth column [x, y, z, 1]; every matrix has
    four rows of four entries, the last row and, for the rotations, the
    last column [0, 0, 0, 1]. *)
Theorem builders_entries (angle x y z : float) :
  let co := cos (radians angle) in
  let si := sin (radians angle) in
  let shape (M : matrix) := map (@length float) M = [4; 4; 4; 4]%nat in
  (block (Rot_yz angle) 1 2 = Some [[co; - si]; [si; co]] /\
   getitem (Rot_yz angle) 0 = Some [1; 0; 0; 0] /\
   column (Rot_yz angle) 0 = Some [1; 0; 0; 0] /\
   getitem (Rot_yz angle) 3 = Some [0; 0; 0; 1] /\
   column (Rot_yz angle) 3 = Some [0; 0; 0; 1] /\
   shape (Rot_yz angle)) /\
  (block (Rot_zx angle) 0 2 = Some [[co; si]; [- si; co]] /\
   getitem (Rot_zx angle) 1 = Some [0; 1; 0; 0] /\
   column (Rot_zx angle) 1 = Some [0; 1; 0; 0] /\
   getitem (Rot_zx angle) 3 = Some [0; 0; 0; 1] /\
   column (Rot_zx angle) 3 = Some [0; 0; 0; 1] /\
   shape (Rot_zx angle)) /\
  (block (Rot_xy angle) 0 1 = Some [[co; - si]; [si; co]] /\
   getitem (Rot_xy angle) 2 = Some [0; 0; 1; 0] /\
   column (Rot_xy angle) 2 = Some [0; 0; 1; 0] /\
   getitem (Rot_xy angle) 3 = Some [0; 0; 0; 1] /\
   column (Rot_xy angle) 3 = Some [0; 0; 0; 1] /\
   shape (Rot_xy angle)) /\
  (column (Trans x y z) 0 = Some [1; 0; 0; 0] /\
   column (Trans x y z) 1 = Some [0; 1; 0; 0] /\
   column (Trans x y z) 2 = Some [0; 0; 1; 0] /\
   column (Trans x y z) 3 = Some [x; y; z; 1] /\
   getitem (Trans x y z) 3 = Some [0; 0; 0; 1] /\
   shape (Trans x y z)).
Proof.
  cbv zeta. unfold block, entry, column, Rot_yz, Rot_zx, Rot_xy, Trans.
  cbn [getitem nth_error comprehension map length].
  repeat split.
Qed.

End Builders.

(** ** Angle ranges *)

(** C6. [toAngle360] returns [nan] on [nan] before it reaches the [%]
    operator, whatever [%] does on a NaN; so does [toAngle180], which
    calls it. *)
Theorem nan_passthrough (rem : float -> float -> float) :
  toAngle360_with rem nan = nan /\ toAngle180_with rem nan = nan /\
  toAngle360 nan = nan /\ toAngle180 nan = nan.
Proof. repeat split. Qed.

(** C4. At the finite angle [-1e-20], [toAngle360] returns [360], which
    is outside the range [0, 360) of its docstring: the remainder
    [-1e-20] is given the sign of the divisor by adding 360, and the sum
    rounds to 360. *)
Theorem toAngle360_reaches_360 :
  is_finite (-1e-20) = true /\
  fmod (-1e-20) 360 = -1e-20 /\
  float_rem (-1e-20) 360 = 360 /\
  toAngle360 (-1e-20) = 360 /\
  (toAngle360 (-1e-20) <? 360) = false.
Proof. vm_compute. repeat split. Qed.

(** C10. [toAngle360] is not idempotent at [-1e-20]: its result 360 is
    mapped to 0 by a second application. *)
Theorem toAngle360_twice :
  toAngle360 (-1e-20) = 360 /\
  toAngle360 (toAngle360 (-1e-20)) = 0 /\
  toAngle360 (toAngle360 (-1e-20)) <> toAngle360 (-1e-20).
Proof.
  split; [vm_compute; reflexivity|]. split; [vm_compute; reflexivity|].
  intros H. apply (f_equal Prim2SF) in H. vm_compute in H. discriminate.
Qed.

(** The values of the module's self-test. *)
Example toAngle360_examples :
  toAngle360 360 = 0 /\ toAngle360 (-1) = 359 /\ toAngle360 (-181) = 179 /\
  toAngle360 (-180) = 180 /\ toAngle360 180 = 180.
Proof. vm_compute. repeat split. Qed.

(** ** Fixed points of the normalizers *)

Local Open Scope Z_scope.

Lemma bounded_unique (m1 m2 : positive) (e1 e2 : Z) :
  bounded prec emax m1 e1 = true -> bounded prec emax m2 e2 = true ->
  Zpos m1 * 2 ^ (e1 + 1074) = Zpos m2 * 2 ^ (e2 + 1074) ->
  m1 = m2 /\ e1 = e2.
Proof.
  intros H1 H2 Hv.
  destruct (Z.lt_trichotomy e1 e2) as [Hlt | [Heq | Hgt]].
  - pose proof (finite_val_lt _ _ _ _ H1 H2 Hlt) as H. rewrite Hv in H. lia.
  - subst e2. destruct (bounded_facts _ _ H1) as (He & _).
    pose proof (pow2_pos (e1 + 1074) ltac:(lia)) as Hu.
    split; [|reflexivity]. apply Pos2Z.inj. nia.
  - pose proof (finite_val_lt _ _ _ _ H2 H1 Hgt) as H. rewrite Hv in H. lia.
Qed.

Lemma binary_round_canonical (s : bool) (m : positive) (e : Z) :
  bounded prec emax m e = true ->
  binary_round prec emax s m e = S754_finite s m e.
Proof.
  intros Hb. destruct (bounded_facts _ _ Hb) as (He & _ & _ & Hd).
  destruct (binary_round_exact s m e ltac:(lia) Hd ltac:(lia)) as (mz & ez & Hr & Hbz & Hv).
  destruct (bounded_unique _ _ _ _ Hbz Hb Hv) as [-> ->]. exact Hr.
Qed.

(** [fmod x 360] is [x] itself when [|x| < 360]. *)
Lemma fmod_360_small (x : float) (s : bool) (m : positive) (e : Z) :
  Prim2SF x = S754_finite s m e ->
  Zpos m * 2 ^ (e + 1074) < 360 * scale ->
  fmod x 360 = x.
Proof.
  intros H Hv. pose proof (Prim2SF_valid x) as Hb. rewrite H in Hb. cbn [valid_binary] in Hb.
  destruct (bounded_facts _ _ Hb) as (He & _).
  pose proof scale_pos as HU.
  assert (He44 : e <= -44).
  { apply (exponent_upper m e (-44) Hb); [lia|]. change (2 ^ (-44 + 53)) with 512. lia. }
  rewrite (fmod_360_unfold x s m e H).
  replace (Z.min e (-44)) with e by lia. rewrite Z.sub_diag.
  change (2 ^ 0) with 1. rewrite Z.mul_1_r.
  pose proof (scale_360 e ltac:(lia)) as Hsc.
  pose proof (pow2_pos (e + 1074) ltac:(lia)) as Hu.
  pose proof (pow2_pos (-44 - e) ltac:(lia)) as Hy.
  rewrite Z.mod_small by nia.
  rewrite binary_normalize_pos, (binary_round_canonical s m e Hb), <- H.
  apply SF2Prim_Prim2SF.
Qed.

Lemma Prim2SF_zero_eq (a : float) : Prim2SF a = S754_zero false -> a = 0%float.
Proof. intros H. apply Prim2SF_inj. rewrite H. symmetry. exact Prim2SF_0. Qed.

(** [toAngle360] leaves the numbers of [0, 360) as they are. *)
Lemma toAngle360_fixed (a : float) :
  in_0_360 (Prim2SF a) -> Fval a < 360 * scale -> toAngle360 a = a.
Proof.
  intros Ha Hlt. destruct (in_0_360_val a Ha) as [Hf _].
  destruct (toAngle360_finite a Hf) as [E _]. rewrite E. clear E.
  destruct Ha as [Hz | (ma & ea & Hp & Hb & _)].
  - rewrite (Prim2SF_zero_eq a Hz). vm_compute. reflexivity.
  - unfold Fval in Hlt. rewrite Hp in Hlt. cbn [SFval cond_Zopp] in Hlt.
    rewrite float_rem_360_unfold. cbv zeta.
    rewrite (fmod_360_small a false ma ea Hp Hlt).
    rewrite eqb_spec, ltb_spec, Hp, Prim2SF_0. reflexivity.
Qed.

(** [b + 360] gives back [a] when [b] is [a - 360] and [a] is in
    (180, 360): the sum is a binary64 number, so it is not rounded. *)
Lemma SFadd_360_exact (mb ma : positive) (eb ea : Z) :
  bounded prec emax mb eb = true -> bounded prec emax ma ea = true ->
  Zpos mb * 2 ^ (eb + 1074) = 360 * scale - Zpos ma * 2 ^ (ea + 1074) ->
  180 * scale < Zpos ma * 2 ^ (ea + 1074) ->
  SFadd prec emax (S754_finite true mb eb) (S754_finite false 6333186975989760 (-44))
    = S754_finite false ma ea.
Proof.
  intros Hbb Hba Hvb Hlo. pose proof scale_pos as HU.
  destruct (bounded_facts _ _ Hbb) as (Heb & _).
  destruct (bounded_facts _ _ Hba) as (Hea & Hma & Hnorm & _).
  pose proof (pow2_pos (eb + 1074) ltac:(lia)) as Hub.
  pose proof (pow2_pos (ea + 1074) ltac:(lia)) as Hua.
  assert (Hea1 : -46 < ea).
  { apply (exponent_lower ma ea (-46) Hba); [lia|].
    change (2 ^ (-46 + 53)) with 128. lia. }
  assert (Heb1 : eb <= -45).
  { apply (exponent_upper mb eb (-45) Hbb); [lia|].
    change (2 ^ (-45 + 53)) with 256. lia. }
  destruct (SFadd_360_rounds mb eb Hbb ltac:(lia)) as (p & ma' & ea' & Hp & _ & Hr & Hba' & Hrt).
  rewrite Hr. f_equal; apply (bounded_unique ma' ma ea' ea Hba' Hba).
  all: cut (Zpos ma' * 2 ^ (ea' + 1074) = Zpos ma * 2 ^ (ea + 1074)); [tauto|].
  all: assert (Hpa : Zpos p = Zpos ma * 2 ^ (ea - eb)).
  1,3: apply (Z.mul_cancel_r _ _ (2 ^ (eb + 1074))); [lia|];
       rewrite <- Z.mul_assoc, <- pow2_split by lia;
       replace (ea - eb + (eb + 1074)) with (ea + 1074) by lia; lia.
  all: assert (Hdp : Zpos (digits2_pos p) = 53 + (ea - eb)).
  1,3: rewrite (digits2_pos_shift ma p (ea - eb) ltac:(lia) Hpa); f_equal;
       apply digits2_pos_unique; change (53 - 1) with 52; lia.
  all: rewrite Hdp in Hrt;
       replace (eb + Z.max (53 + (ea - eb) - 53) 0 + 1074) with (ea + 1074) in Hrt by lia;
       destruct Hrt as (_ & _ & _ & Hex);
       rewrite Hex; [lia|]; rewrite Hp, Hvb;
       replace (360 * scale - (360 * scale - Zpos ma * 2 ^ (ea + 1074)))
         with (Zpos ma * 2 ^ (ea + 1074)) by lia;
       apply Z.mod_mul; lia.
Qed.

Local Open Scope float_scope.

Lemma Fval_360 : Fval 360 = (360 * scale)%Z.
Proof.
  unfold Fval. rewrite Prim2SF_360. cbn [SFval cond_Zopp].
  rewrite <- (scale_360 (-44)) by lia. reflexivity.
Qed.

Lemma Fval_0 : Fval 0 = 0%Z.
Proof. unfold Fval. rewrite Prim2SF_0. reflexivity. Qed.

(** X1. On a finite angle, [toAngle360] is in the closed range [0, 360]. *)
Theorem toAngle360_closed_range (angle : float) :
  is_finite angle = true ->
  (0 <=? toAngle360 angle) && (toAngle360 angle <=? 360) = true.
Proof.
  intros Hf. destruct (toAngle360_finite angle Hf) as [_ Ha].
  destruct (in_0_360_val _ Ha) as [Hfa Hv].
  rewrite (leb_val 0 _ eq_refl Hfa), (leb_val _ 360 Hfa eq_refl), Fval_0, Fval_360.
  apply andb_true_iff. split; apply Z.leb_le; lia.
Qed.

Lemma toAngle360_closed_range_witness :
  is_finite (-1e-20) = true /\
  (0 <=? toAngle360 (-1e-20)) && (toAngle360 (-1e-20) <=? 360) = true.
Proof.
  split; [reflexivity|]. apply (toAngle360_closed_range (-1e-20)). reflexivity.
Defined.

(** X3. [toAngle360] is idempotent at every finite angle that it maps
    below 360. *)
Theorem toAngle360_idempotent_below_360 (angle : float) :
  is_finite angle = true -> (toAngle360 angle <? 360) = true ->
  toAngle360 (toAngle360 angle) = toAngle360 angle.
Proof.
  intros Hf Hlt. destruct (toAngle360_finite angle Hf) as [_ Ha].
  destruct (in_0_360_val _ Ha) as [Hfa _].
  rewrite (ltb_val _ 360 Hfa eq_refl), Fval_360 in Hlt. apply Z.ltb_lt in Hlt.
  apply toAngle360_fixed; assumption.
Qed.

Lemma toAngle360_idempotent_below_360_witness :
  is_finite (-181) = true /\ (toAngle360 (-181) <? 360) = true /\
  toAngle360 (toAngle360 (-181)) = toAngle360 (-181).
Proof.
  split; [reflexivity|]. split; [reflexivity|].
  apply (toAngle360_idempotent_below_360 (-181)); reflexivity.
Defined.

(** X4. [toAngle180] is idempotent on finite angles. *)
Theorem toAngle180_idempotent (angle : float) :
  is_finite angle = true ->
  toAngle180 (toAngle180 angle) = toAngle180 angle.
Proof.
  intros Hf. destruct (toAngle360_finite angle Hf) as [_ Ha].
  assert (Hunf : forall x, toAngle180 x
            = if 180 <? toAngle360 x then toAngle360 x - 360 else toAngle360 x)
    by reflexivity.
  rewrite (Hunf angle).
  set (a := toAngle360 angle) in *.
  destruct (in_0_360_val a Ha) as [Hfa [Ha0 Ha360]].
  pose proof scale_pos as HU.
  destruct (180 <? a) eqn:Hcmp; rewrite (ltb_val 180 a eq_refl Hfa), Fval_180 in Hcmp.
  - apply Z.ltb_lt in Hcmp.
    destruct Ha as [Hz | (ma & ea & Hp & Hb & Hv)].
    { unfold Fval in Hcmp. rewrite Hz in Hcmp. cbn [SFval] in Hcmp. lia. }
    assert (Eva : Fval a = (Zpos ma * 2 ^ (ea + 1074))%Z)
      by (unfold Fval; rewrite Hp; reflexivity).
    rewrite Eva in Hcmp.
    assert (Epb : Prim2SF (a - 360)
                  = SFsub prec emax (S754_finite false ma ea)
                      (S754_finite false 6333186975989760 (-44))).
    { rewrite sub_spec, Hp, Prim2SF_360. reflexivity. }
    destruct (SFsub_360_cases ma ea Hb (conj Hcmp Hv))
      as [[Hz _] | (mb & eb & Hfb & Hbb & Hvb)]; rewrite <- Epb in *.
    + rewrite (Prim2SF_zero_eq _ Hz). vm_compute. reflexivity.
    + set (b := a - 360) in *.
      assert (Hfinb : is_finite b = true) by (rewrite is_finite_spec, Hfb; reflexivity).
      assert (Eb360 : toAngle360 b = a).
      { destruct (toAngle360_finite b Hfinb) as [E _]. rewrite E.
        rewrite float_rem_360_unfold. cbv zeta.
        rewrite (fmod_360_small b true mb eb Hfb ltac:(lia)).
        rewrite eqb_spec, ltb_spec, Hfb, Prim2SF_0.
        cbn [SFeqb SFltb SFcompare negb xorb].
        apply Prim2SF_inj. rewrite add_spec, Hfb, Prim2SF_360, Hp.
        apply SFadd_360_exact; assumption. }
      rewrite (Hunf b), Eb360.
      rewrite (ltb_val 180 a eq_refl Hfa), Fval_180, Eva.
      apply Z.ltb_lt in Hcmp. rewrite Hcmp. reflexivity.
  - apply Z.ltb_ge in Hcmp.
    rewrite (Hunf a), (toAngle360_fixed a Ha ltac:(lia)).
    rewrite (ltb_val 180 a eq_refl Hfa), Fval_180.
    apply Z.ltb_ge in Hcmp. rewrite Hcmp. reflexivity.
Qed.

Lemma toAngle180_idempotent_witness :
  is_finite (-1e-20) = true /\
  toAngle180 (toAngle180 (-1e-20)) = toAngle180 (-1e-20).
Proof.
  split; [reflexivity|]. apply (toAngle180_idempotent (-1e-20)). reflexivity.
Defined.

Lemma float_rem_360_nonneg (x : float) :
  is_finite x = true -> (0 <= Fval x)%Z ->
  Fval (float_rem x 360) = (Fval x mod (360 * scale))%Z /\
  (Fval (float_rem x 360) < 360 * scale)%Z.
Proof.
  intros Hf Hx. pose proof scale_pos as HU.
  rewrite float_rem_360_unfold. cbv zeta.
  assert (Hz : forall s, Prim2SF (fmod x 360) = S754_zero s ->
    (if negb (fmod x 360 =? 0)
     then if xorb false (fmod x 360 <? 0) then fmod x 360 + 360 else fmod x 360
     else 0) = 0).
  { intros s Hs. rewrite eqb_spec, Hs, Prim2SF_0. reflexivity. }
  destruct (Prim2SF_finite x Hf) as [[s Hp] | (s & m & e & Hp & Hb)].
  - rewrite (Hz s) by (unfold fmod; rewrite Hp, Prim2SF_360; exact Hp).
    unfold Fval at 2. rewrite Hp, Fval_0. cbn [SFval].
    rewrite Z.mod_0_l by lia. split; lia.
  - destruct (bounded_facts _ _ Hb) as (He & _).
    pose proof (pow2_pos (e + 1074) ltac:(lia)) as Hu.
    assert (Es : s = false).
    { destruct s; [|reflexivity]. unfold Fval in Hx. rewrite Hp in Hx.
      cbn [SFval cond_Zopp] in Hx. nia. }
    subst s.
    assert (Ev : Fval x = (Zpos m * 2 ^ (e + 1074))%Z)
      by (unfold Fval; rewrite Hp; reflexivity).
    rewrite Ev.
    destruct (fmod_360_finite x false m e Hp) as [[Hs HR] | (mr & er & Hr & Hbr & Hvr & HR)].
    + rewrite (Hz false Hs), Fval_0, HR. split; lia.
    + rewrite eqb_spec, ltb_spec, Hr, Prim2SF_0.
      cbn [SFeqb SFltb SFcompare negb xorb].
      unfold Fval. rewrite Hr. cbn [SFval cond_Zopp]. split; lia.
Qed.

(** X2. On a finite angle that is not negative, [toAngle360] is the
    mathematical remainder of the angle by 360, exactly, and is in
    [0, 360). *)
Theorem toAngle360_nonneg (angle : float) :
  is_finite angle = true -> (0 <=? angle) = true ->
  Fval (toAngle360 angle) = (Fval angle mod (360 * scale))%Z /\
  (0 <=? toAngle360 angle) && (toAngle360 angle <? 360) = true.
Proof.
  intros Hf Hpos. rewrite (leb_val 0 angle eq_refl Hf), Fval_0 in Hpos.
  apply Z.leb_le in Hpos.
  destruct (toAngle360_finite angle Hf) as [E Ha].
  destruct (in_0_360_val _ Ha) as [Hfa [Hlo _]].
  destruct (float_rem_360_nonneg angle Hf Hpos) as [Hv Hlt].
  rewrite <- E in Hv, Hlt. split; [exact Hv|].
  rewrite (leb_val 0 _ eq_refl Hfa), (ltb_val _ 360 Hfa eq_refl), Fval_0, Fval_360.
  apply andb_true_iff. split; [apply Z.leb_le | apply Z.ltb_lt]; lia.
Qed.

Lemma toAngle360_nonneg_witness :
  is_finite 725.5 = true /\ (0 <=? 725.5) = true /\
  (0 <=? toAngle360 725.5) && (toAngle360 725.5 <? 360) = true.
Proof.
  split; [reflexivity|]. split; [reflexivity|].
  apply (toAngle360_nonneg 725.5); reflexivity.
Defined.

(** ** Index errors *)

Section IndexErrors.

Context {npa : NumpyAngles}.

(** X5. An extractor raises [IndexError] exactly on a sequence shorter than
    the highest index it reads, plus one: three components for all but
    [fAngleXY], which reads only the first two. *)
Theorem extractors_raise (p : point) :
  (fAngleYZ p = None <-> (length p < 3)%nat) /\
  (fAngleZX p = None <-> (length p < 3)%nat) /\
  (fAngleXY p = None <-> (length p < 2)%nat) /\
  (fAngleXR p = None <-> (length p < 3)%nat) /\
  (fAngleYR p = None <-> (length p < 3)%nat) /\
  (fAngleZR p = None <-> (length p < 3)%nat).
Proof.
  unfold fAngleYZ, fAngleZX, fAngleXY, fAngleXR, fAngleYR, fAngleZR.
  destruct p as [|x [|y [|z t]]]; cbn [getitem nth_error length];
    repeat split; intros H; try discriminate; try lia; try reflexivity;
    match type of H with
    | context [if ?c then _ else _] => destruct c; discriminate
    end.
Qed.

End IndexErrors.

(** ** Points on an axis *)

Section OnAxis.

Context {npa : NumpyAngles}.

(** X7. For a point on an axis, the axis-to-radius extractor of that axis
    returns [degrees (arctan2 0 c)] with [c] the coordinate on the axis
    and [0] the positive zero: at the origin the result follows the sign
    of the zero [c].  The two other coordinates are the float [+0] or the
    integer 0. *)
Theorem axis_to_radius_on_axis (c w a b : number) :
  power_square_zero npa ->
  (a = Float 0 \/ a = Int 0) -> (b = Float 0 \/ b = Int 0) ->
  fAngleXR [c; a; b; w] = Some (degrees (arctan2 0 (float64 c))) /\
  fAngleYR [a; c; b; w] = Some (degrees (arctan2 0 (float64 c))) /\
  fAngleZR [a; b; c; w] = Some (degrees (arctan2 0 (float64 c))).
Proof.
  intros Hp0 Ha Hb. unfold power_square_zero in Hp0.
  assert (Hr : forall u v, (u = Float 0 \/ u = Int 0) -> (v = Float 0 \/ v = Int 0) ->
    np_sqrt (np_add (np_power u 2) (np_power v 2)) = 0).
  { intros u v [-> | ->] [-> | ->]; unfold np_sqrt; cbn [np_power np_add float64];
      rewrite ?float_of_int_2, ?Hp0; reflexivity. }
  unfold fAngleXR, fAngleYR, fAngleZR, np_arctan2. cbn [getitem nth_error].
  rewrite (Hr b a Hb Ha), (Hr a b Ha Hb). repeat split.
Qed.

End OnAxis.

Lemma axis_to_radius_on_axis_witness :
  power_square_zero Axis /\
  fAngleXR (npa := Axis) [Float (-0); Float 0; Float 0; Float 1]
  = Some (@degrees Axis (@arctan2 Axis 0 (-0))).
Proof.
  split; [exact axis_power_zero|].
  exact (proj1 (axis_to_radius_on_axis (npa := Axis) (Float (-0)) (Float 1) (Float 0) (Float 0)
                  axis_power_zero (or_introl eq_refl) (or_introl eq_refl))).
Defined.

(** X6. A comprehension raises exactly when its function raises on some
    element: one malformed point aborts a whole batch. *)
Theorem comprehension_raises {A B} (f : A -> option B) (l : list A) :
  comprehension f l = None <-> exists x, In x l /\ f x = None.
Proof.
  induction l as [|a l IH]; cbn [comprehension].
  - split; [discriminate | intros (x & [] & _)].
  - destruct (f a) as [b|] eqn:Ea.
    + destruct (comprehension f l) as [out|].
      * split; [discriminate|]. intros (x & [<- | Hx] & Hfx); [congruence|].
        destruct IH as [_ IH]. discriminate IH. exists x. split; assumption.
      * split; [|reflexivity]. intros _. destruct IH as [IH _].
        destruct (IH eq_refl) as (x & Hx & Hfx). exists x. split; [right|]; assumption.
    + split; [|reflexivity]. intros _. exists a. split; [left; reflexivity | exact Ea].
Qed.

(** ** More on the normalizers *)

Local Open Scope float_scope.

Lemma opp_involutive (a : float) : - - a = a.
Proof.
  apply Prim2SF_inj. rewrite !opp_spec.
  destruct (Prim2SF a) as [s | s | | s m e]; cbn [SFopp]; rewrite ?negb_involutive; reflexivity.
Qed.

Lemma finite_between (a lo hi : float) :
  is_finite lo = true -> is_finite hi = true ->
  (lo <=? a) = true -> (a <=? hi) = true -> is_finite a = true.
Proof.
  rewrite !is_finite_spec, !leb_spec. unfold SFleb.
  destruct (Prim2SF lo) as [sl | sl | | sl ml el]; try discriminate;
  destruct (Prim2SF hi) as [sh | sh | | sh mh eh]; try discriminate;
  destruct (Prim2SF a) as [s | [|] | | s m e]; cbn [SFcompare SFfinite];
    intros _ _ H1 H2; try reflexivity; try discriminate;
    try (destruct sl; discriminate); try (destruct sh; discriminate).
Qed.

Lemma ltb_leb (x y : float) : (x <? y) = true -> (x <=? y) = true.
Proof.
  rewrite ltb_spec, leb_spec. unfold SFltb, SFleb.
  destruct (SFcompare (Prim2SF x) (Prim2SF y)) as [[| |]|]; (reflexivity || discriminate).
Qed.

(** The floats that are not finite. *)
Lemma not_finite_cases (a : float) :
  is_finite a = false -> a = nan \/ a = infinity \/ a = neg_infinity.
Proof.
  rewrite is_finite_spec. intros H.
  destruct (Prim2SF a) as [s | [|] | | s m e] eqn:E; try discriminate.
  - right. right. apply Prim2SF_inj. rewrite E. reflexivity.
  - right. left. apply Prim2SF_inj. rewrite E. reflexivity.
  - left. apply Prim2SF_inj. rewrite E. reflexivity.
Qed.

(** What [toAngle180] returns on a finite angle: a finite number in
    (-180, 180] that is not the negative zero. *)
Lemma toAngle180_finite (a : float) :
  is_finite a = true ->
  is_finite (toAngle180 a) = true /\
  (- (180 * scale) < Fval (toAngle180 a) <= 180 * scale)%Z /\
  Prim2SF (toAngle180 a) <> S754_zero true.
Proof.
  intros Hf. destruct (toAngle360_finite a Hf) as [_ Ha].
  change (toAngle180 a)
    with (if 180 <? toAngle360 a then toAngle360 a - 360 else toAngle360 a).
  set (v := toAngle360 a) in *.
  destruct (in_0_360_val v Ha) as [Hfv [Hv0 Hv360]].
  pose proof scale_pos as HU.
  rewrite (ltb_val 180 v eq_refl Hfv), Fval_180.
  destruct (Z.ltb_spec (180 * scale) (Fval v)) as [Hgt | Hle].
  - destruct Ha as [Hz | (ma & ea & Hp & Hb & Hv)].
    { unfold Fval in Hgt. rewrite Hz in Hgt. cbn [SFval] in Hgt. lia. }
    assert (Eva : Fval v = (Zpos ma * 2 ^ (ea + 1074))%Z)
      by (unfold Fval; rewrite Hp; reflexivity).
    rewrite Eva in Hgt.
    assert (Epb : Prim2SF (v - 360)
                  = SFsub prec emax (S754_finite false ma ea)
                      (S754_finite false 6333186975989760 (-44))).
    { rewrite sub_spec, Hp, Prim2SF_360. reflexivity. }
    rewrite is_finite_spec. unfold Fval. rewrite Epb.
    destruct (SFsub_360_cases ma ea Hb (conj Hgt Hv))
      as [[Hz _] | (mb & eb & Hfb & Hbb & Hvb)].
    + rewrite Hz. cbn [SFfinite SFval]. repeat split; try lia. discriminate.
    + rewrite Hfb. cbn [SFfinite SFval cond_Zopp]. repeat split; try lia. discriminate.
  - split; [exact Hfv|]. split; [lia|].
    destruct Ha as [Hz | (ma & ea & Hp & _)]; [rewrite Hz | rewrite Hp]; discriminate.
Qed.

(** X8. A normalizer returns NaN exactly on the angles that are not
    finite: NaN, and the two infinities (whose remainder by 360 is NaN). *)
Theorem normalizers_nan_iff (a : float) :
  is_nan (toAngle360 a) = negb (is_finite a) /\
  is_nan (toAngle180 a) = negb (is_finite a).
Proof.
  destruct (is_finite a) eqn:Hf; cbn [negb].
  - split.
    + destruct (toAngle360_finite a Hf) as [_ Ha].
      apply is_finite_not_nan. apply (in_0_360_val _ Ha).
    + apply is_finite_not_nan. apply (toAngle180_finite a Hf).
  - destruct (not_finite_cases a Hf) as [-> | [-> | ->]]; vm_compute; split; reflexivity.
Qed.

(** X9. A normalizer never returns the negative zero, whatever the
    angle. *)
Theorem normalizers_no_negative_zero (a : float) :
  toAngle360 a <> -0 /\ toAngle180 a <> -0.
Proof.
  assert (Hnz : forall x, Prim2SF x <> S754_zero true -> x <> -0).
  { intros x Hx ->. apply Hx. reflexivity. }
  destruct (is_finite a) eqn:Hf.
  - split; apply Hnz.
    + destruct (toAngle360_finite a Hf) as [_ [Hz | (ma & ea & Hp & _)]];
        [rewrite Hz | rewrite Hp]; discriminate.
    + apply (toAngle180_finite a Hf).
  - destruct (not_finite_cases a Hf) as [-> | [-> | ->]];
      split; apply Hnz; vm_compute; discriminate.
Qed.

Lemma positive_below (a hi : float) :
  is_finite hi = true -> (0 <? a) = true -> (a <=? hi) = true ->
  is_finite a = true /\ (0 < Fval a <= Fval hi)%Z /\
  exists m e, Prim2SF a = S754_finite false m e /\ bounded prec emax m e = true.
Proof.
  intros Hhi H0 Hle.
  assert (Hf : is_finite a = true)
    by (apply (finite_between a 0 hi eq_refl Hhi (ltb_leb _ _ H0) Hle)).
  rewrite (ltb_val 0 a eq_refl Hf), Fval_0 in H0. apply Z.ltb_lt in H0.
  rewrite (leb_val a hi Hf Hhi) in Hle. apply Z.leb_le in Hle.
  split; [exact Hf|]. split; [lia|].
  destruct (Prim2SF_finite a Hf) as [[s Hp] | (s & m & e & Hp & Hb)].
  - unfold Fval in H0. rewrite Hp in H0. cbn [SFval] in H0. lia.
  - destruct (bounded_facts _ _ Hb) as (He & _).
    pose proof (pow2_pos (e + 1074) ltac:(lia)) as Hu.
    destruct s.
    + unfold Fval in H0. rewrite Hp in H0. cbn [SFval cond_Zopp] in H0. nia.
    + exists m, e. split; [exact Hp | exact Hb].
Qed.

Lemma in_0_360_of_positive (a : float) (m : positive) (e : Z) :
  Prim2SF a = S754_finite false m e -> bounded prec emax m e = true ->
  (Fval a <= 360 * scale)%Z -> in_0_360 (Prim2SF a).
Proof.
  intros Hp Hb Hv. right. exists m, e. split; [exact Hp|]. split; [exact Hb|].
  unfold Fval in Hv. rewrite Hp in Hv. exact Hv.
Qed.

Lemma eqb_zero_cases (a : float) : (a =? 0) = true -> a = 0 \/ a = -0.
Proof.
  rewrite eqb_spec, Prim2SF_0. intros Hz.
  destruct (Prim2SF a) as [[|] | s | | s m e] eqn:E; cbn in Hz;
    try discriminate; try (destruct s; discriminate).
  - right. apply Prim2SF_inj. rewrite E. reflexivity.
  - left. apply Prim2SF_inj. rewrite E. reflexivity.
Qed.

Lemma toAngle360_fixed_positive (a : float) :
  (0 <? a) = true -> (a <? 360) = true -> toAngle360 a = a.
Proof.
  intros H0 Hlt. pose proof scale_pos as HU.
  destruct (positive_below a 360 eq_refl H0 (ltb_leb _ _ Hlt))
    as (Hf & [_ Hle] & m & e & Hp & Hb).
  rewrite Fval_360 in Hle.
  rewrite (ltb_val a 360 Hf eq_refl), Fval_360 in Hlt. apply Z.ltb_lt in Hlt.
  apply toAngle360_fixed; [|exact Hlt].
  apply (in_0_360_of_positive a m e Hp Hb). exact Hle.
Qed.

Lemma toAngle180_fixed_positive (a : float) :
  (0 <? a) = true -> (a <=? 180) = true -> toAngle180 a = a.
Proof.
  intros H0 Hle. pose proof scale_pos as HU.
  destruct (positive_below a 180 eq_refl H0 Hle) as (Hf & [_ Hv] & _).
  rewrite Fval_180 in Hv.
  assert (Hlt : (a <? 360) = true).
  { rewrite (ltb_val a 360 Hf eq_refl), Fval_360. apply Z.ltb_lt. lia. }
  change (toAngle180 a)
    with (if 180 <? toAngle360 a then toAngle360 a - 360 else toAngle360 a).
  rewrite (toAngle360_fixed_positive a H0 Hlt), (ltb_val 180 a eq_refl Hf), Fval_180.
  apply Z.ltb_ge in Hv. rewrite Hv. reflexivity.
Qed.

(** X10. The normalizers leave the positive angles of their range as they
    are, bit for bit: [toAngle360] those below 360, [toAngle180] those up
    to 180; both map the two zeros to the positive zero. *)
Theorem normalizers_fixed_points (a : float) :
  ((0 <? a) && (a <? 360) = true -> toAngle360 a = a) /\
  ((0 <? a) && (a <=? 180) = true -> toAngle180 a = a) /\
  ((a =? 0) = true -> toAngle360 a = 0 /\ toAngle180 a = 0).
Proof.
  split; [|split].
  - intros H. apply andb_true_iff in H. destruct H as [H0 Hlt].
    apply toAngle360_fixed_positive; assumption.
  - intros H. apply andb_true_iff in H. destruct H as [H0 Hle].
    apply toAngle180_fixed_positive; assumption.
  - intros Hz. destruct (eqb_zero_cases a Hz) as [-> | ->]; vm_compute; split; reflexivity.
Qed.

Lemma normalizers_fixed_points_witness :
  (0 <? 26.5) && (26.5 <? 360) = true /\ toAngle360 26.5 = 26.5.
Proof.
  split; [reflexivity|].
  apply (proj1 (normalizers_fixed_points 26.5)). reflexivity.
Defined.

(** The only number of [0, 360] that is not below 360. *)
Lemma in_0_360_top (v : float) :
  in_0_360 (Prim2SF v) -> (360 * scale <= Fval v)%Z -> v = 360.
Proof.
  intros [Hz | (ma & ea & Hp & Hb & Hv)] Hge; pose proof scale_pos as HU.
  - unfold Fval in Hge. rewrite Hz in Hge. cbn [SFval] in Hge. lia.
  - unfold Fval in Hge. rewrite Hp in Hge. cbn [SFval cond_Zopp] in Hge.
    apply Prim2SF_inj. rewrite Hp, Prim2SF_360.
    assert (Hb360 : bounded prec emax 6333186975989760 (-44) = true) by reflexivity.
    destruct (bounded_unique ma 6333186975989760 ea (-44) Hb Hb360) as [-> ->];
      [|reflexivity].
    rewrite <- (scale_360 (-44)) in Hv, Hge by lia.
    change (-44 - -44)%Z with 0%Z in Hv, Hge. change (2 ^ 0)%Z with 1%Z in Hv, Hge.
    rewrite Z.mul_1_r in Hv, Hge. lia.
Qed.

(** X11. [toAngle180] of [toAngle360] is [toAngle180], on every finite
    angle (also where [toAngle360] reaches 360). *)
Theorem toAngle180_after_toAngle360 (a : float) :
  is_finite a = true -> toAngle180 (toAngle360 a) = toAngle180 a.
Proof.
  intros Hf. destruct (toAngle360_finite a Hf) as [_ Ha].
  assert (Hunf : forall x, toAngle180 x
            = if 180 <? toAngle360 x then toAngle360 x - 360 else toAngle360 x)
    by reflexivity.
  rewrite (Hunf (toAngle360 a)), (Hunf a).
  destruct (Z_lt_le_dec (Fval (toAngle360 a)) (360 * scale)) as [Hlt | Hge].
  - rewrite (toAngle360_fixed _ Ha Hlt). reflexivity.
  - rewrite (in_0_360_top _ Ha Hge). vm_compute. reflexivity.
Qed.

Lemma toAngle180_after_toAngle360_witness :
  is_finite (-1e-20) = true /\
  toAngle180 (toAngle360 (-1e-20)) = toAngle180 (-1e-20).
Proof.
  split; [reflexivity|]. apply (toAngle180_after_toAngle360 (-1e-20)). reflexivity.
Defined.

(** [toAngle360] undoes the subtraction of [toAngle180]. *)
Lemma toAngle360_unshift (v : float) :
  in_0_360 (Prim2SF v) -> (180 * scale < Fval v < 360 * scale)%Z ->
  toAngle360 (v - 360) = v.
Proof.
  intros Ha [Hlo Hhi]. pose proof scale_pos as HU.
  destruct Ha as [Hz | (ma & ea & Hp & Hb & Hv)].
  { unfold Fval in Hlo. rewrite Hz in Hlo. cbn [SFval] in Hlo. lia. }
  assert (Eva : Fval v = (Zpos ma * 2 ^ (ea + 1074))%Z)
    by (unfold Fval; rewrite Hp; reflexivity).
  rewrite Eva in Hlo, Hhi.
  assert (Epb : Prim2SF (v - 360)
                = SFsub prec emax (S754_finite false ma ea)
                    (S754_finite false 6333186975989760 (-44))).
  { rewrite sub_spec, Hp, Prim2SF_360. reflexivity. }
  destruct (SFsub_360_cases ma ea Hb (conj Hlo Hv))
    as [[_ Hz] | (mb & eb & Hfb & Hbb & Hvb)]; [lia|].
  rewrite <- Epb in Hfb. set (b := v - 360) in *.
  assert (Hfinb : is_finite b = true) by (rewrite is_finite_spec, Hfb; reflexivity).
  destruct (toAngle360_finite b Hfinb) as [E _]. rewrite E.
  rewrite float_rem_360_unfold. cbv zeta.
  rewrite (fmod_360_small b true mb eb Hfb ltac:(lia)).
  rewrite eqb_spec, ltb_spec, Hfb, Prim2SF_0.
  cbn [SFeqb SFltb SFcompare negb xorb].
  apply Prim2SF_inj. rewrite add_spec, Hfb, Prim2SF_360, Hp.
  apply SFadd_360_exact; assumption.
Qed.

(** X12. [toAngle360] of [toAngle180] is [toAngle360], on every finite
    angle that [toAngle360] maps below 360. *)
Theorem toAngle360_after_toAngle180 (a : float) :
  is_finite a = true -> (toAngle360 a <? 360) = true ->
  toAngle360 (toAngle180 a) = toAngle360 a.
Proof.
  intros Hf Hlt. destruct (toAngle360_finite a Hf) as [_ Ha].
  destruct (in_0_360_val _ Ha) as [Hfv _].
  rewrite (ltb_val _ 360 Hfv eq_refl), Fval_360 in Hlt. apply Z.ltb_lt in Hlt.
  change (toAngle180 a)
    with (if 180 <? toAngle360 a then toAngle360 a - 360 else toAngle360 a).
  rewrite (ltb_val 180 _ eq_refl Hfv), Fval_180.
  destruct (Z.ltb_spec (180 * scale) (Fval (toAngle360 a))) as [Hgt | Hle].
  - apply toAngle360_unshift; [exact Ha | lia].
  - apply toAngle360_fixed; assumption.
Qed.

Lemma toAngle360_after_toAngle180_witness :
  is_finite (-1) = true /\ (toAngle360 (-1) <? 360) = true /\
  toAngle360 (toAngle180 (-1)) = toAngle360 (-1).
Proof.
  split; [reflexivity|]. split; [reflexivity|].
  apply (toAngle360_after_toAngle180 (-1)); reflexivity.
Defined.

(** ** Exact normalization *)

Local Open Scope Z_scope.

Lemma grid_divides_360 : (2 ^ 1030 | 360 * scale).
Proof.
  exists (360 * 2 ^ 44). unfold scale. rewrite <- Z.mul_assoc, <- pow2_split by lia.
  reflexivity.
Qed.

Lemma pow2_divide (j k : Z) : 0 <= j <= k -> (2 ^ j | 2 ^ k).
Proof.
  intros H. exists (2 ^ (k - j)). rewrite <- pow2_split by lia. f_equal. lia.
Qed.

(** The value of [x % 360] where it is not rounded. *)
Lemma float_rem_360_exact (x : float) :
  is_finite x = true -> exact_angle x ->
  Fval (float_rem x 360) = Fval x mod (360 * scale) /\
  Fval (float_rem x 360) < 360 * scale.
Proof.
  intros Hf [Hpos | Hgrid]; [apply float_rem_360_nonneg; assumption|].
  destruct (Z_le_gt_dec 0 (Fval x)) as [Hpos | Hneg];
    [apply float_rem_360_nonneg; assumption|].
  pose proof scale_pos as HU.
  destruct (Prim2SF_finite x Hf) as [[s Hp] | (s & m & e & Hp & Hb)].
  { unfold Fval in Hneg. rewrite Hp in Hneg. cbn [SFval] in Hneg. lia. }
  destruct (bounded_facts _ _ Hb) as (He & _).
  pose proof (pow2_pos (e + 1074) ltac:(lia)) as Hu.
  assert (Ev : Fval x = cond_Zopp s (Zpos m * 2 ^ (e + 1074)))
    by (unfold Fval; rewrite Hp; reflexivity).
  destruct s; [|rewrite Ev in Hneg; cbn [cond_Zopp] in Hneg; nia].
  cbn [cond_Zopp] in Ev. rewrite Ev in *.
  set (X := Zpos m * 2 ^ (e + 1074)) in *.
  set (M := 360 * scale) in *.
  assert (HM : 0 < M) by (unfold M; lia).
  assert (HgX : (2 ^ 1030 | X)) by (apply Z.divide_opp_r; exact Hgrid).
  rewrite float_rem_360_unfold. cbv zeta.
  destruct (fmod_360_finite x true m e Hp) as [[Hs HR] | (mr & er & Hr & Hbr & Hvr & HR)];
    fold X in HR; fold M in HR.
  - rewrite eqb_spec, Hs, Prim2SF_0. cbn [SFeqb SFcompare negb].
    rewrite Fval_0, Z.mod_opp_l_z by lia. split; lia.
  - rewrite eqb_spec, ltb_spec, Hr, Prim2SF_0.
    cbn [SFeqb SFltb SFcompare negb xorb].
    destruct (bounded_facts _ _ Hbr) as (Her & _).
    pose proof (pow2_pos (er + 1074) ltac:(lia)) as Hur.
    destruct (SFadd_360_rounds mr er Hbr Hvr) as (p & ma & ea & Hp' & Hd & Hadd & Hba & Hrt).
    fold M in Hp'.
    assert (Hsum : Prim2SF (fmod x 360 + 360)%float = S754_finite false ma ea).
    { rewrite add_spec, Hr, Prim2SF_360. exact Hadd. }
    unfold Fval. rewrite Hsum. cbn [SFval cond_Zopp].
    assert (HgR : (2 ^ 1030 | X mod M)).
    { rewrite Z.mod_eq by lia. apply Z.divide_sub_r; [exact HgX|].
      apply Z.divide_mul_l. exact grid_divides_360. }
    set (k := er + Z.max (Zpos (digits2_pos p) - 53) 0 + 1074) in *.
    assert (Hk : (2 ^ k | Zpos p * 2 ^ (er + 1074))).
    { destruct (Z_le_gt_dec (Zpos (digits2_pos p)) 53) as [Hd53 | Hd53].
      - replace k with (er + 1074) by (unfold k; lia). apply Z.divide_factor_r.
      - rewrite Hp', HR.
        apply (Z.divide_trans _ (2 ^ 1030)); [apply pow2_divide; unfold k; lia|].
        apply Z.divide_sub_r; [exact grid_divides_360 | exact HgR]. }
    destruct Hrt as (Hu0 & _ & _ & Hex).
    rewrite Hex by (apply Z.mod_divide; [lia | exact Hk]).
    assert (HR0 : 0 < X mod M) by (rewrite <- HR; nia).
    rewrite Hp', Z.mod_opp_l_nz by lia. split; lia.
Qed.

Local Open Scope float_scope.

(** X13. On a finite angle that is not negative or is a multiple of
    [2 ^ -44] (every integer angle is), [toAngle360] is the mathematical
    remainder of the angle by 360, exactly, and is below 360. *)
Theorem toAngle360_exact (a : float) :
  is_finite a = true -> exact_angle a ->
  Fval (toAngle360 a) = (Fval a mod (360 * scale))%Z /\
  (toAngle360 a <? 360) = true.
Proof.
  intros Hf Hex. destruct (toAngle360_finite a Hf) as [E Ha].
  destruct (in_0_360_val _ Ha) as [Hfv _].
  destruct (float_rem_360_exact a Hf Hex) as [Hv Hlt]. rewrite <- E in Hv, Hlt.
  split; [exact Hv|].
  rewrite (ltb_val _ 360 Hfv eq_refl), Fval_360. apply Z.ltb_lt. exact Hlt.
Qed.

Lemma toAngle360_exact_witness :
  is_finite (-181) = true /\ exact_angle (-181) /\ (toAngle360 (-181) <? 360) = true.
Proof.
  assert (He : exact_angle (-181)).
  { right. exists (-(181 * 2 ^ 44))%Z. vm_compute. reflexivity. }
  split; [reflexivity|]. split; [exact He|].
  apply (toAngle360_exact (-181) eq_refl He).
Defined.

Lemma in_0_360_inj (x y : float) :
  in_0_360 (Prim2SF x) -> in_0_360 (Prim2SF y) -> Fval x = Fval y -> x = y.
Proof.
  intros Hx Hy E. apply Prim2SF_inj. unfold Fval in E.
  destruct Hx as [Hx | (mx & ex & Hx & Hbx & _)], Hy as [Hy | (my & ey & Hy & Hby & _)];
    rewrite Hx, Hy in *; cbn [SFval cond_Zopp] in E.
  - reflexivity.
  - destruct (bounded_facts _ _ Hby) as (He & _).
    pose proof (pow2_pos (ey + 1074) ltac:(lia)). nia.
  - destruct (bounded_facts _ _ Hbx) as (He & _).
    pose proof (pow2_pos (ex + 1074) ltac:(lia)). nia.
  - destruct (bounded_unique _ _ _ _ Hbx Hby E) as [-> ->]. reflexivity.
Qed.

(** X14. Period 360: two such angles whose difference is a multiple of
    360 have the same [toAngle360], bit for bit, and the same
    [toAngle180]. *)
Theorem normalizers_periodic (a b : float) :
  is_finite a = true -> is_finite b = true ->
  exact_angle a -> exact_angle b ->
  (360 * scale | Fval a - Fval b)%Z ->
  toAngle360 a = toAngle360 b /\ toAngle180 a = toAngle180 b.
Proof.
  intros Hfa Hfb Hea Heb Hdiv. pose proof scale_pos as HU.
  assert (E : toAngle360 a = toAngle360 b).
  { destruct (toAngle360_finite a Hfa) as [Ea Ha].
    destruct (toAngle360_finite b Hfb) as [Eb Hb].
    apply in_0_360_inj; [exact Ha | exact Hb|].
    destruct (float_rem_360_exact a Hfa Hea) as [Hva _].
    destruct (float_rem_360_exact b Hfb Heb) as [Hvb _].
    rewrite Ea, Eb, Hva, Hvb.
    destruct Hdiv as [q Hq].
    replace (Fval a) with (Fval b + q * (360 * scale))%Z by lia.
    apply Z.mod_add. lia. }
  split; [exact E|].
  change (toAngle180 a)
    with (if 180 <? toAngle360 a then toAngle360 a - 360 else toAngle360 a).
  rewrite E. reflexivity.
Qed.

Lemma normalizers_periodic_witness :
  is_finite (-181) = true /\ is_finite 539 = true /\
  toAngle360 (-181) = toAngle360 539.
Proof.
  split; [reflexivity|]. split; [reflexivity|].
  refine (proj1 (normalizers_periodic (-181) 539 eq_refl eq_refl _ _ _)).
  - right. exists (-(181 * 2 ^ 44))%Z. vm_compute. reflexivity.
  - left. vm_compute. discriminate.
  - exists (-2)%Z. vm_compute. reflexivity.
Defined.

(** ** Accuracy *)

Local Open Scope Z_scope.

Lemma rounds_to_near (u V V' : Z) : rounds_to u V V' -> - u < V' - V < u.
Proof.
  intros (Hu & _ & [Hlo Hhi] & Hex).
  pose proof (Z.div_mod V u ltac:(lia)) as Hdm.
  pose proof (Z.mod_pos_bound V u Hu) as Hmb.
  destruct (Z.eq_dec (V mod u) 0) as [H0 | H0].
  - rewrite (Hex H0). lia.
  - nia.
Qed.

Lemma float_rem_360_near (x : float) :
  is_finite x = true ->
  - 2 ^ 1030 < Fval (float_rem x 360) - Fval x mod (360 * scale) < 2 ^ 1030.
Proof.
  intros Hf. assert (Hg : 0 < 2 ^ 1030) by (apply pow2_pos; lia).
  destruct (Z_le_gt_dec 0 (Fval x)) as [Hpos | Hneg].
  { destruct (float_rem_360_nonneg x Hf Hpos) as [-> _]. rewrite Z.sub_diag. lia. }
  pose proof scale_pos as HU.
  destruct (Prim2SF_finite x Hf) as [[s Hp] | (s & m & e & Hp & Hb)].
  { unfold Fval in Hneg. rewrite Hp in Hneg. cbn [SFval] in Hneg. lia. }
  destruct (bounded_facts _ _ Hb) as (He & _).
  pose proof (pow2_pos (e + 1074) ltac:(lia)) as Hu.
  assert (Ev : Fval x = cond_Zopp s (Zpos m * 2 ^ (e + 1074)))
    by (unfold Fval; rewrite Hp; reflexivity).
  destruct s; [|rewrite Ev in Hneg; cbn [cond_Zopp] in Hneg; nia].
  cbn [cond_Zopp] in Ev. rewrite Ev in *.
  set (X := Zpos m * 2 ^ (e + 1074)) in *.
  set (M := 360 * scale) in *.
  assert (HM : 0 < M) by (unfold M; lia).
  rewrite float_rem_360_unfold. cbv zeta.
  destruct (fmod_360_finite x true m e Hp) as [[Hs HR] | (mr & er & Hr & Hbr & Hvr & HR)];
    fold X in HR; fold M in HR.
  - rewrite eqb_spec, Hs, Prim2SF_0. cbn [SFeqb SFcompare negb].
    rewrite Fval_0, Z.mod_opp_l_z by lia. lia.
  - rewrite eqb_spec, ltb_spec, Hr, Prim2SF_0.
    cbn [SFeqb SFltb SFcompare negb xorb].
    destruct (bounded_facts _ _ Hbr) as (Her & _).
    pose proof (pow2_pos (er + 1074) ltac:(lia)) as Hur.
    destruct (SFadd_360_rounds mr er Hbr Hvr) as (p & ma & ea & Hp' & Hd & Hadd & Hba & Hrt).
    fold M in Hp'.
    assert (Hsum : Prim2SF (fmod x 360 + 360)%float = S754_finite false ma ea).
    { rewrite add_spec, Hr, Prim2SF_360. exact Hadd. }
    unfold Fval. rewrite Hsum. cbn [SFval cond_Zopp].
    assert (HR0 : 0 < X mod M) by (rewrite <- HR; nia).
    rewrite Z.mod_opp_l_nz by lia. rewrite <- HR, <- Hp'.
    set (k := er + Z.max (Zpos (digits2_pos p) - 53) 0 + 1074) in *.
    destruct (Z_le_gt_dec (Zpos (digits2_pos p)) 53) as [Hd53 | Hd53].
    + destruct Hrt as (_ & _ & _ & Hex). rewrite Hex; [lia|].
      replace k with (er + 1074) by (unfold k; lia). apply Z.mod_mul. lia.
    + pose proof (rounds_to_near _ _ _ Hrt) as Hnear.
      assert (Hle : 2 ^ k <= 2 ^ 1030) by (apply Z.pow_le_mono_r; unfold k; lia).
      revert Hnear Hle Hg. generalize (2 ^ k) (2 ^ 1030). intros; lia.
Qed.

(** X15. On every finite angle, [toAngle360] is within [2 ^ -44] of the
    mathematical remainder of the angle by 360; so it returns 360 only
    for a negative angle less than [2 ^ -44] below a multiple of 360. *)
Theorem toAngle360_accuracy (a : float) :
  is_finite a = true ->
  - 2 ^ 1030 < Fval (toAngle360 a) - Fval a mod (360 * scale) < 2 ^ 1030 /\
  (toAngle360 a = 360%float ->
   Fval a < 0 /\ 360 * scale - 2 ^ 1030 < Fval a mod (360 * scale)).
Proof.
  intros Hf. destruct (toAngle360_finite a Hf) as [E _].
  pose proof (float_rem_360_near a Hf) as Hnear. rewrite <- E in Hnear.
  split; [exact Hnear|]. intros H360. rewrite H360, Fval_360 in Hnear.
  split.
  - destruct (Z_le_gt_dec 0 (Fval a)) as [Hpos | Hneg]; [|lia].
    destruct (float_rem_360_nonneg a Hf Hpos) as [_ Hlt].
    rewrite <- E, H360, Fval_360 in Hlt. lia.
  - revert Hnear. generalize (2 ^ 1030) (Fval a mod (360 * scale)). intros; lia.
Qed.

Lemma toAngle360_accuracy_witness :
  is_finite (-1e-20)%float = true /\
  (toAngle360 (-1e-20) = 360%float ->
   Fval (-1e-20) < 0 /\ 360 * scale - 2 ^ 1030 < Fval (-1e-20) mod (360 * scale)).
Proof.
  split; [reflexivity|].
  exact (proj2 (toAngle360_accuracy (-1e-20)%float eq_refl)).
Defined.

(** ** Symmetries of the extractors and of the builders *)

Local Open Scope float_scope.

Section Relabel.

Context {npa : NumpyAngles}.

(** X16. The extractors are one function up to the names of the axes:
    turning the axes (x to y to z to x) maps [fAngleZX] and [fAngleXY] to
    [fAngleYZ], and [fAngleYR] and [fAngleZR] to [fAngleXR]; and an
    axis-to-radius angle does not depend on the order of the two other
    coordinates, the sum of the squares being commutative, in [float64]
    and in [int64]. *)
Theorem extractors_relabel (x y z w : number) :
  fAngleZX [x; y; z; w] = fAngleYZ [y; z; x; w] /\
  fAngleXY [x; y; z; w] = fAngleYZ [z; x; y; w] /\
  fAngleYR [x; y; z; w] = fAngleXR [y; z; x; w] /\
  fAngleZR [x; y; z; w] = fAngleXR [z; x; y; w] /\
  fAngleXR [x; y; z; w] = fAngleXR [x; z; y; w] /\
  fAngleYR [x; y; z; w] = fAngleYR [z; y; x; w] /\
  fAngleZR [x; y; z; w] = fAngleZR [y; x; z; w].
Proof.
  unfold fAngleYZ, fAngleZX, fAngleXY, fAngleXR, fAngleYR, fAngleZR.
  cbn [getitem nth_error].
  rewrite (andb_comm (np_less (np_abs z) f_eps) (np_less (np_abs x) f_eps)).
  rewrite (np_add_comm (np_power x 2) (np_power z 2)).
  rewrite (np_add_comm (np_power y 2) (np_power x 2)).
  rewrite (np_add_comm (np_power y 2) (np_power z 2)).
  repeat split.
Qed.

(** X17. A batch over a concatenation is the concatenation of the
    batches, and raises when either batch raises: a sequence can be
    processed in chunks. *)
Theorem batch_app (l1 l2 : list point) (a1 a2 : list float) :
  let chunks (g : list point -> option (list float)) :=
    g (l1 ++ l2) = (o1 <- g l1 ;; o2 <- g l2 ;; Some (o1 ++ o2)) in
  chunks fAngleArrYZ /\ chunks fAngleArrZX /\ chunks fAngleArrXY /\
  chunks fAngleArrXR /\ chunks fAngleArrYR /\ chunks fAngleArrZR /\
  toAngleArr360 (a1 ++ a2) = toAngleArr360 a1 ++ toAngleArr360 a2 /\
  toAngleArr180 (a1 ++ a2) = toAngleArr180 a1 ++ toAngleArr180 a2.
Proof.
  assert (Happ : forall f : point -> option float,
    comprehension f (l1 ++ l2)
    = (o1 <- comprehension f l1 ;; o2 <- comprehension f l2 ;; Some (o1 ++ o2))).
  { intros f. induction l1 as [|p l IH]; cbn [app comprehension].
    - destruct (comprehension f l2); reflexivity.
    - destruct (f p); [|reflexivity]. rewrite IH.
      destruct (comprehension f l); [|reflexivity].
      destruct (comprehension f l2); reflexivity. }
  cbv zeta. unfold fAngleArrYZ, fAngleArrZX, fAngleArrXY, fAngleArrXR, fAngleArrYR,
    fAngleArrZR, toAngleArr360, toAngleArr180.
  repeat split; try apply Happ; apply map_app.
Qed.

(** X18. Normalizing an axis-to-radius angle changes nothing: on finite
    coordinates whose squares and their sum do not overflow, the angle is
    in [0, 180], where both normalizers return a number equal to their
    argument. *)
Theorem normalize_axis_to_radius (p : point) (x y z : number) :
  power_square_nonneg npa -> arctan2_degrees_upper npa ->
  getitem p 0 = Some x -> getitem p 1 = Some y -> getitem p 2 = Some z ->
  finite x -> finite y -> finite z ->
  no_overflow z y -> no_overflow z x -> no_overflow x y ->
  let unchanged (r : option float) :=
    exists d, r = Some d /\ (toAngle360 d =? d) = true /\ (toAngle180 d =? d) = true in
  unchanged (fAngleXR p) /\ unchanged (fAngleYR p) /\ unchanged (fAngleZR p).
Proof.
  intros Hpow Hup Hx Hy Hz Fx Fy Fz Ozy Ozx Oxy unchanged.
  assert (Hfix : forall d, (0 <=? d) && (d <=? 180) = true ->
    (toAngle360 d =? d) = true /\ (toAngle180 d =? d) = true).
  { intros d Hd. apply andb_true_iff in Hd. destruct Hd as [H0 H180].
    assert (Hf : is_finite d = true) by (apply (finite_between d 0 180); auto).
    destruct (d =? 0) eqn:Hz0.
    - destruct (eqb_zero_cases d Hz0) as [-> | ->]; vm_compute; split; reflexivity.
    - assert (Hpos : (0 <? d) = true).
      { rewrite (ltb_val 0 d eq_refl Hf). rewrite (leb_val 0 d eq_refl Hf) in H0.
        rewrite eqb_spec in Hz0. unfold SFeqb in Hz0.
        rewrite (SFcompare_val _ _ (Prim2SF_valid _) (Prim2SF_valid _)) in Hz0;
          try (rewrite <- is_finite_spec; auto).
        fold (Fval d) in Hz0. fold (Fval 0) in Hz0.
        apply Z.leb_le in H0. apply Z.ltb_lt.
        destruct (Z.compare_spec (Fval d) (Fval 0)); try discriminate; lia. }
      assert (Hlt : (d <? 360) = true).
      { rewrite (ltb_val d 360 Hf eq_refl), Fval_360.
        rewrite (leb_val d 180 Hf eq_refl), Fval_180 in H180.
        apply Z.leb_le in H180. apply Z.ltb_lt. pose proof scale_pos. lia. }
      rewrite (toAngle360_fixed_positive d Hpos Hlt), (toAngle180_fixed_positive d Hpos H180).
      assert (Hrefl : (d =? d) = true).
      { rewrite eqb_spec. unfold SFeqb. rewrite SFcompare_refl.
        rewrite is_finite_spec in Hf. destruct (Prim2SF d); (reflexivity || discriminate). }
      auto. }
  assert (Hr : forall a b c, finite a -> finite b -> finite c -> no_overflow a b ->
    unchanged (Some (degrees (np_arctan2
      (Float (np_sqrt (np_add (np_power a 2) (np_power b 2)))) c)))).
  { intros a b c Fa Fb Fc Oab. eexists. split; [reflexivity|].
    unfold np_arctan2. cbn [float64]. rewrite (radius_exact a b Oab).
    apply Hfix, Hup; [|apply float64_finite; exact Fc].
    apply euclidean_norm_nonneg; assumption. }
  unfold fAngleXR, fAngleYR, fAngleZR. rewrite Hx, Hy, Hz.
  repeat split; apply Hr; assumption.
Qed.

End Relabel.

Lemma normalize_axis_to_radius_witness :
  power_square_nonneg Axis /\ arctan2_degrees_upper Axis /\
  finite (Int 2) /\ finite (Int 1) /\ no_overflow (Int 1) (Int 1) /\
  no_overflow (Int 1) (Int 2) /\ no_overflow (Int 2) (Int 1) /\
  exists d, fAngleXR (npa := Axis) [Int 2; Int 1; Int 1; Int 1] = Some d /\
            (toAngle360 d =? d) = true /\ (toAngle180 d =? d) = true.
Proof.
  assert (F1 : finite (Int 1)) by (apply finite_int_small; cbn; lia).
  assert (F2 : finite (Int 2)) by (apply finite_int_small; cbn; lia).
  assert (O11 : no_overflow (Int 1) (Int 1)) by (cbn; lia).
  assert (O12 : no_overflow (Int 1) (Int 2)) by (cbn; lia).
  assert (O21 : no_overflow (Int 2) (Int 1)) by (cbn; lia).
  split; [exact axis_power_nonneg|]. split; [exact axis_upper|].
  split; [exact F2|]. split; [exact F1|]. split; [exact O11|].
  split; [exact O12|]. split; [exact O21|].
  exact (proj1 (normalize_axis_to_radius (npa := Axis) [Int 2; Int 1; Int 1; Int 1]
           (Int 2) (Int 1) (Int 1) axis_power_nonneg axis_upper
           eq_refl eq_refl eq_refl F2 F1 F1 O11 O12 O21)).
Defined.

Section Transpose.

Context {npt : NumpyTrig}.

(** X19. Where [radians] and [sin] are odd and [cos] is even, the
    rotation by the opposite angle is the transpose of the rotation, for
    each of the three builders. *)
Theorem rotation_opposite_angle (angle : float) :
  trig_parity npt ->
  transpose (Rot_yz angle) = Some (Rot_yz (- angle)) /\
  transpose (Rot_zx angle) = Some (Rot_zx (- angle)) /\
  transpose (Rot_xy angle) = Some (Rot_xy (- angle)).
Proof.
  intros (Hrad & Hcos & Hsin).
  unfold transpose, column, Rot_yz, Rot_zx, Rot_xy.
  cbn [comprehension getitem nth_error].
  rewrite Hrad, Hcos, Hsin, opp_involutive. repeat split.
Qed.

End Transpose.

Lemma small_angle_parity : trig_parity SmallAngle.
Proof. repeat split. Qed.

Lemma rotation_opposite_angle_witness :
  trig_parity SmallAngle /\
  transpose (Rot_xy (npt := SmallAngle) 0.5) = Some (Rot_xy (npt := SmallAngle) (- 0.5)).
Proof.
  split; [exact small_angle_parity|].
  apply (rotation_opposite_angle (npt := SmallAngle) 0.5 small_angle_parity).
Defined.
